(** * valhalla-common / policy: pattern matcher and condition evaluator

    A shallow embedding of the Go package [policy]
    (iam_matcher.go, cond_matcher.go, the condition operators and the
    condition types), together with small executable models of the
    library functions it calls ([strings], [regexp], [regexp2],
    [golang-lru], [time], [net]).

    Go strings are byte sequences: they are modelled by [string], whose
    characters are 8-bit [ascii] values.  Go [int] values are modelled by
    [Z]; no arithmetic of the package can overflow. *)

From Stdlib Require Import ZArith QArith Ascii String List Bool Lia.
From stdpp Require Import base option list gmap strings.

Local Open Scope Z_scope.

(** ** Bytes *)

Definition byteZ (c : ascii) : Z := Z.of_N (N_of_ascii c).

Definition isDigit (c : ascii) : bool := (48 <=? byteZ c) && (byteZ c <=? 57).

Definition digitVal (c : ascii) : Z := byteZ c - 48.

(** ** Panics

    A Go call either yields a value or panics. *)

Inductive panic : Type :=
| TypeAssertion   (* interface conversion: dynamic type differs *)
| IndexOutOfRange.

Inductive exec (A : Type) : Type :=
| Done (a : A)
| Panic (p : panic).
Arguments Done {A} a.
Arguments Panic {A} p.

#[global] Instance exec_ret : MRet exec := fun A a => Done a.

#[global] Instance exec_bind : MBind exec := fun A B k m =>
  match m with
  | Done a => k a
  | Panic p => Panic p
  end.

(** ** Runes

    [regexp2] works on runes: it converts the expression and the input
    with [[]rune(s)], and [strings.EqualFold] compares rune by rune.
    [string(c)] of a byte [c] is the UTF-8 encoding of the code point
    [c]. *)

Module UTF8.

Definition rune : Type := Z.

Definition RuneError : rune := 65533.

(** For a leading byte above 0x7F: the length of its sequence and the
    range of its second byte ([first] and [acceptRanges] of
    [unicode/utf8]); [None] for a byte that starts no sequence. *)
Definition leading (p0 : Z) : option (Z * Z * Z) :=
  if (194 <=? p0) && (p0 <=? 223) then Some (2, 128, 191)
  else if p0 =? 224 then Some (3, 160, 191)
  else if (225 <=? p0) && (p0 <=? 236) then Some (3, 128, 191)
  else if p0 =? 237 then Some (3, 128, 159)
  else if (238 <=? p0) && (p0 <=? 239) then Some (3, 128, 191)
  else if p0 =? 240 then Some (4, 144, 191)
  else if (241 <=? p0) && (p0 <=? 243) then Some (4, 128, 191)
  else if p0 =? 244 then Some (4, 128, 143)
  else None.

Definition cont (b : Z) : bool := (128 <=? b) && (b <=? 191).

(** [utf8.DecodeRuneInString] on a non-empty string whose first byte is
    [c0]: the rune and its width. *)
Definition DecodeRune (c0 : ascii) (r : string) : rune * nat :=
  let p0 := byteZ c0 in
  if p0 <? 128 then (p0, 1%nat)
  else
    match leading p0 with
    | None => (RuneError, 1%nat)
    | Some (sz, lo, hi) =>
        match r with
        | EmptyString => (RuneError, 1%nat)
        | String c1 r1 =>
            let b1 := byteZ c1 in
            if (b1 <? lo) || (hi <? b1) then (RuneError, 1%nat)
            else if sz <=? 2 then ((p0 mod 32) * 64 + b1 mod 64, 2%nat)
            else
              match r1 with
              | EmptyString => (RuneError, 1%nat)
              | String c2 r2 =>
                  let b2 := byteZ c2 in
                  if negb (cont b2) then (RuneError, 1%nat)
                  else if sz <=? 3
                  then (((p0 mod 16) * 64 + b1 mod 64) * 64 + b2 mod 64, 3%nat)
                  else
                    match r2 with
                    | EmptyString => (RuneError, 1%nat)
                    | String c3 _ =>
                        let b3 := byteZ c3 in
                        if negb (cont b3) then (RuneError, 1%nat)
                        else ((((p0 mod 8) * 64 + b1 mod 64) * 64 + b2 mod 64) * 64
                              + b3 mod 64, 4%nat)
                    end
              end
        end
    end.

(** [[]rune(s)]; [skip] counts the bytes of the current rune that are
    still to be passed over. *)
Fixpoint runesFrom (skip : nat) (s : string) : list rune :=
  match s with
  | EmptyString => []
  | String c r =>
      match skip with
      | S k => runesFrom k r
      | O => let '(x, w) := DecodeRune c r in x :: runesFrom (Nat.pred w) r
      end
  end.

Definition runes (s : string) : list rune := runesFrom 0 s.

Definition byteOfZ (n : Z) : ascii := ascii_of_N (Z.to_N n).

(** [string(c)] for a byte [c]. *)
Definition stringOfByte (c : ascii) : string :=
  let n := byteZ c in
  if n <? 128 then String c EmptyString
  else String (byteOfZ (192 + n / 64))
         (String (byteOfZ (128 + n mod 64)) EmptyString).

End UTF8.

(** ** Package unicode: simple case folding

    [unicode.SimpleFold] walks the orbit of a rune: the runes equal to it
    under the simple case folding of Unicode (CaseFolding.txt, statuses C
    and S, of Unicode 15.0, the version of the Go release that go.mod
    names).  Every rune of an orbit folds to the same rune of it, and
    runes of different orbits to different ones.  An entry
    [(lo, hi, stride, delta)] of the table folds each of [lo],
    [lo + stride], ..., [hi] to itself plus [delta]; a rune in no entry
    folds to itself. *)

Module GoUnicode.

Definition caseFolding : list (Z * Z * Z * Z) :=
  [
   (65, 90, 1, 32); (181, 181, 1, 775); (192, 214, 1, 32); (216, 222, 1, 32);
   (256, 302, 2, 1); (306, 310, 2, 1); (313, 327, 2, 1); (330, 374, 2, 1);
   (376, 376, 1, -121); (377, 381, 2, 1); (383, 383, 1, -268);
   (385, 385, 1, 210); (386, 388, 2, 1); (390, 390, 1, 206);
   (391, 391, 1, 1); (393, 394, 1, 205); (395, 395, 1, 1); (398, 398, 1, 79);
   (399, 399, 1, 202); (400, 400, 1, 203); (401, 401, 1, 1);
   (403, 403, 1, 205); (404, 404, 1, 207); (406, 406, 1, 211);
   (407, 407, 1, 209); (408, 408, 1, 1); (412, 412, 1, 211);
   (413, 413, 1, 213); (415, 415, 1, 214); (416, 420, 2, 1);
   (422, 422, 1, 218); (423, 423, 1, 1); (425, 425, 1, 218);
   (428, 428, 1, 1); (430, 430, 1, 218); (431, 431, 1, 1);
   (433, 434, 1, 217); (435, 437, 2, 1); (439, 439, 1, 219);
   (440, 440, 1, 1); (444, 444, 1, 1); (452, 452, 1, 2); (453, 453, 1, 1);
   (455, 455, 1, 2); (456, 456, 1, 1); (458, 458, 1, 2); (459, 475, 2, 1);
   (478, 494, 2, 1); (497, 497, 1, 2); (498, 500, 2, 1); (502, 502, 1, -97);
   (503, 503, 1, -56); (504, 542, 2, 1); (544, 544, 1, -130);
   (546, 562, 2, 1); (570, 570, 1, 10795); (571, 571, 1, 1);
   (573, 573, 1, -163); (574, 574, 1, 10792); (577, 577, 1, 1);
   (579, 579, 1, -195); (580, 580, 1, 69); (581, 581, 1, 71);
   (582, 590, 2, 1); (837, 837, 1, 116); (880, 882, 2, 1); (886, 886, 1, 1);
   (895, 895, 1, 116); (902, 902, 1, 38); (904, 906, 1, 37);
   (908, 908, 1, 64); (910, 911, 1, 63); (913, 929, 1, 32);
   (931, 939, 1, 32); (962, 962, 1, 1); (975, 975, 1, 8); (976, 976, 1, -30);
   (977, 977, 1, -25); (981, 981, 1, -15); (982, 982, 1, -22);
   (984, 1006, 2, 1); (1008, 1008, 1, -54); (1009, 1009, 1, -48);
   (1012, 1012, 1, -60); (1013, 1013, 1, -64); (1015, 1015, 1, 1);
   (1017, 1017, 1, -7); (1018, 1018, 1, 1); (1021, 1023, 1, -130);
   (1024, 1039, 1, 80); (1040, 1071, 1, 32); (1120, 1152, 2, 1);
   (1162, 1214, 2, 1); (1216, 1216, 1, 15); (1217, 1229, 2, 1);
   (1232, 1326, 2, 1); (1329, 1366, 1, 48); (4256, 4293, 1, 7264);
   (4295, 4295, 1, 7264); (4301, 4301, 1, 7264); (5112, 5117, 1, -8);
   (7296, 7296, 1, -6222); (7297, 7297, 1, -6221); (7298, 7298, 1, -6212);
   (7299, 7300, 1, -6210); (7301, 7301, 1, -6211); (7302, 7302, 1, -6204);
   (7303, 7303, 1, -6180); (7304, 7304, 1, 35267); (7312, 7354, 1, -3008);
   (7357, 7359, 1, -3008); (7680, 7828, 2, 1); (7835, 7835, 1, -58);
   (7838, 7838, 1, -7615); (7840, 7934, 2, 1); (7944, 7951, 1, -8);
   (7960, 7965, 1, -8); (7976, 7983, 1, -8); (7992, 7999, 1, -8);
   (8008, 8013, 1, -8); (8025, 8031, 2, -8); (8040, 8047, 1, -8);
   (8072, 8079, 1, -8); (8088, 8095, 1, -8); (8104, 8111, 1, -8);
   (8120, 8121, 1, -8); (8122, 8123, 1, -74); (8124, 8124, 1, -9);
   (8126, 8126, 1, -7173); (8136, 8139, 1, -86); (8140, 8140, 1, -9);
   (8152, 8153, 1, -8); (8154, 8155, 1, -100); (8168, 8169, 1, -8);
   (8170, 8171, 1, -112); (8172, 8172, 1, -7); (8184, 8185, 1, -128);
   (8186, 8187, 1, -126); (8188, 8188, 1, -9); (8486, 8486, 1, -7517);
   (8490, 8490, 1, -8383); (8491, 8491, 1, -8262); (8498, 8498, 1, 28);
   (8544, 8559, 1, 16); (8579, 8579, 1, 1); (9398, 9423, 1, 26);
   (11264, 11311, 1, 48); (11360, 11360, 1, 1); (11362, 11362, 1, -10743);
   (11363, 11363, 1, -3814); (11364, 11364, 1, -10727); (11367, 11371, 2, 1);
   (11373, 11373, 1, -10780); (11374, 11374, 1, -10749);
   (11375, 11375, 1, -10783); (11376, 11376, 1, -10782);
   (11378, 11378, 1, 1); (11381, 11381, 1, 1); (11390, 11391, 1, -10815);
   (11392, 11490, 2, 1); (11499, 11501, 2, 1); (11506, 11506, 1, 1);
   (42560, 42604, 2, 1); (42624, 42650, 2, 1); (42786, 42798, 2, 1);
   (42802, 42862, 2, 1); (42873, 42875, 2, 1); (42877, 42877, 1, -35332);
   (42878, 42886, 2, 1); (42891, 42891, 1, 1); (42893, 42893, 1, -42280);
   (42896, 42898, 2, 1); (42902, 42920, 2, 1); (42922, 42922, 1, -42308);
   (42923, 42923, 1, -42319); (42924, 42924, 1, -42315);
   (42925, 42925, 1, -42305); (42926, 42926, 1, -42308);
   (42928, 42928, 1, -42258); (42929, 42929, 1, -42282);
   (42930, 42930, 1, -42261); (42931, 42931, 1, 928); (42932, 42946, 2, 1);
   (42948, 42948, 1, -48); (42949, 42949, 1, -42307);
   (42950, 42950, 1, -35384); (42951, 42953, 2, 1); (42960, 42960, 1, 1);
   (42966, 42968, 2, 1); (42997, 42997, 1, 1); (43888, 43967, 1, -38864);
   (65313, 65338, 1, 32); (66560, 66599, 1, 40); (66736, 66771, 1, 40);
   (66928, 66964, 2, 39); (66929, 66937, 2, 39); (66941, 66953, 2, 39);
   (66957, 66961, 2, 39); (66965, 66965, 1, 39); (68736, 68786, 1, 64);
   (71840, 71871, 1, 32); (93760, 93791, 1, 32); (125184, 125217, 1, 34)
  ].

Definition foldRune (r : Z) : Z :=
  match
    List.find
      (fun '(lo, hi, stride, _) =>
         (lo <=? r) && (r <=? hi) && ((r - lo) mod stride =? 0))
      caseFolding
  with
  | Some (_, _, _, delta) => r + delta
  | None => r
  end.

End GoUnicode.

(** ** Package strings *)

Module GoStrings.

(** [strings.Contains(s, substr)]. *)
Fixpoint Contains (s substr : string) : bool :=
  if String.prefix substr s then true
  else match s with
       | EmptyString => false
       | String _ s' => Contains s' substr
       end.

(** [strings.Split(s, sep)] for a one-byte separator, the only way the
    matcher calls it. *)
Fixpoint Split (s : string) (sep : ascii) : list string :=
  match s with
  | EmptyString => [EmptyString]
  | String c r =>
      if Ascii.eqb c sep then EmptyString :: Split r sep
      else match Split r sep with
           | h :: t => String c h :: t
           | [] => [String c EmptyString]
           end
  end.

(** Whether byte [c] occurs in [s]: [strings.Contains(s, string(c))]. *)
Fixpoint ContainsByte (s : string) (c : ascii) : bool :=
  match s with
  | EmptyString => false
  | String d r => Ascii.eqb d c || ContainsByte r c
  end.

(** The loop of [strings.EqualFold] over the runes of both strings:
    two runes pass when they are equal or in one orbit of
    [unicode.SimpleFold]. *)
Fixpoint equalFoldRunes (s t : list UTF8.rune) : bool :=
  match s, t with
  | [], [] => true
  | sr :: s', tr :: t' =>
      (GoUnicode.foldRune sr =? GoUnicode.foldRune tr) && equalFoldRunes s' t'
  | _, _ => false
  end.

(** [strings.EqualFold(s, t)]: both strings are read rune by rune, a
    byte that begins no UTF-8 sequence as U+FFFD. *)
Definition EqualFold (s t : string) : bool :=
  equalFoldRunes (UTF8.runes s) (UTF8.runes t).

End GoStrings.

(** ** Package time

    [time.Parse(time.RFC3339, s)] and the comparisons of [time.Time].
    A [Time] is an instant: whole seconds since 0001-01-01T00:00:00Z (the
    zero value of [time.Time]) and the nanoseconds within that second. *)

Module GoTime.

Record Time : Type := mkTime { sec : Z; nsec : Z }.

(** The zero value [time.Time{}], which [time.Parse] returns next to a
    non-nil error. *)
Definition zero : Time := mkTime 0 0.

Definition Equal (t u : Time) : bool :=
  (sec t =? sec u) && (nsec t =? nsec u).

Definition Before (t u : Time) : bool :=
  (sec t <? sec u) || ((sec t =? sec u) && (nsec t <? nsec u)).

Definition After (t u : Time) : bool :=
  (sec t >? sec u) || ((sec t =? sec u) && (nsec t >? nsec u)).

(** [getnum]: one or two decimal digits, exactly two when [fixed]. *)
Definition getnum (s : string) (fixed : bool) : option (Z * string) :=
  match s with
  | String a r =>
      if isDigit a then
        match r with
        | String b r' =>
            if isDigit b then Some (digitVal a * 10 + digitVal b, r')
            else if fixed then None else Some (digitVal a, r)
        | EmptyString => if fixed then None else Some (digitVal a, r)
        end
      else None
  | EmptyString => None
  end.

(** The four-digit year of the layout element [2006]. *)
Definition getyear (s : string) : option (Z * string) :=
  match s with
  | String a (String b (String c (String d r))) =>
      if isDigit a && isDigit b && isDigit c && isDigit d
      then Some (((digitVal a * 10 + digitVal b) * 10 + digitVal c) * 10 + digitVal d, r)
      else None
  | _ => None
  end.

(** A literal byte of the layout. *)
Definition expect (c : ascii) (s : string) : option string :=
  match s with
  | String a r => if Ascii.eqb a c then Some r else None
  | EmptyString => None
  end.

(** The digits of a fractional second: at most nine are significant,
    the value is scaled to nanoseconds, further digits are skipped. *)
Fixpoint fracDigits (s : string) (scale acc : Z) : Z * string :=
  match s with
  | String a r =>
      if isDigit a then fracDigits r (scale / 10) (acc + digitVal a * scale)
      else (acc, s)
  | EmptyString => (acc, s)
  end.

Definition commaOrPeriod (c : ascii) : bool :=
  Ascii.eqb c "." || Ascii.eqb c ",".

(** A fractional second in the input that the layout does not name. *)
Definition getfrac (s : string) : Z * string :=
  match s with
  | String p (String d r) =>
      if commaOrPeriod p && isDigit d then fracDigits (String d r) 100000000 0
      else (0, s)
  | _ => (0, s)
  end.

(** The layout element [Z07:00]: the zone offset in seconds. *)
Definition getzone (s : string) : option (Z * string) :=
  match s with
  | String "Z" r => Some (0, r)
  | String sg (String h1 (String h2 (String ":" (String m1 (String m2 r))))) =>
      '(hr, _) ← getnum (String h1 (String h2 EmptyString)) true;
      '(mm, _) ← getnum (String m1 (String m2 EmptyString)) true;
      if (hr >? 24) || (mm >? 60) then None
      else if Ascii.eqb sg "+" then Some ((hr * 60 + mm) * 60, r)
      else if Ascii.eqb sg "-" then Some (- ((hr * 60 + mm) * 60), r)
      else None
  | _ => None
  end.

Definition isLeap (year : Z) : bool :=
  (year mod 4 =? 0) && (negb (year mod 100 =? 0) || (year mod 400 =? 0)).

Definition daysIn (month year : Z) : Z :=
  if month =? 2 then (if isLeap year then 29 else 28)
  else if (month =? 4) || (month =? 6) || (month =? 9) || (month =? 11) then 30
  else 31.

(** Days of the year before the first of [month]. *)
Definition daysBefore (month year : Z) : Z :=
  let cum := nth (Z.to_nat (month - 1))
                 [0; 31; 59; 90; 120; 151; 181; 212; 243; 273; 304; 334] 0 in
  if (month >? 2) && isLeap year then cum + 1 else cum.

(** Days from 0001-01-01 to the first day of [year] (proleptic Gregorian). *)
Definition daysSinceEpoch (year : Z) : Z :=
  let y := year - 1 in 365 * y + y / 4 - y / 100 + y / 400.

(** [time.Date(year, month, day, hour, min, sec, nsec, time.UTC)] on
    fields that are in range. *)
Definition Date (year month day hour min sec nsec : Z) : Time :=
  let d := daysSinceEpoch year + daysBefore month year + (day - 1) in
  mkTime (d * 86400 + hour * 3600 + min * 60 + sec) nsec.

(** [time.Parse(time.RFC3339, s)]: [None] stands for a non-nil error. *)
Definition ParseRFC3339 (s : string) : option Time :=
  '(year, s) ← getyear s;
  s ← expect "-" s;
  '(month, s) ← getnum s true;
  if (month <=? 0) || (12 <? month) then None else
  s ← expect "-" s;
  '(day, s) ← getnum s true;
  s ← expect "T" s;
  '(hour, s) ← getnum s false;
  if 24 <=? hour then None else
  s ← expect ":" s;
  '(min, s) ← getnum s true;
  if 60 <=? min then None else
  s ← expect ":" s;
  '(sec, s) ← getnum s true;
  if 60 <=? sec then None else
  let '(nsec, s) := getfrac s in
  '(zoneOffset, s) ← getzone s;
  match s with
  | EmptyString =>
      if (day <? 1) || (daysIn month year <? day) then None
      else
        let t := Date year month day hour min sec nsec in
        Some (mkTime (GoTime.sec t - zoneOffset) (GoTime.nsec t))
  | _ => None
  end.

End GoTime.

(** ** Package net

    [net.ParseIP], [net.ParseCIDR], [IP.Equal] and [IPNet.Contains].
    An [IP] is its byte slice (4 or 16 bytes; the empty list is the nil
    slice). *)

Module GoNet.

Definition IP : Type := list Z.

Record IPNet : Type := mkIPNet { netIP : IP; netMask : list Z }.

(** What [netip.ParseAddr] yields: a 4-byte or a 16-byte address. *)
Inductive Addr : Type :=
| Addr4 (b : list Z)
| Addr16 (b : list Z).

Definition v4InV6Prefix : list Z := [0; 0; 0; 0; 0; 0; 0; 0; 0; 0; 255; 255].

Definition As16 (a : Addr) : IP :=
  match a with
  | Addr4 b => v4InV6Prefix ++ b
  | Addr16 b => b
  end.

Definition BitLen (a : Addr) : Z :=
  match a with
  | Addr4 _ => 32
  | Addr16 _ => 128
  end.

Definition isEmpty (s : string) : bool :=
  match s with EmptyString => true | _ => false end.

(** [parseIPv4Fields]: the dotted-decimal loop.  [first] holds at index
    0, [prevDot] when the previous byte was a dot. *)
Fixpoint parseIPv4Fields (s : string) (first prevDot : bool)
    (val pos digLen : Z) (fields : list Z) : option (list Z) :=
  match s with
  | EmptyString => if pos <? 3 then None else Some (fields ++ [val])
  | String c r =>
      if isDigit c then
        if (digLen =? 1) && (val =? 0) then None
        else
          let val' := val * 10 + digitVal c in
          if val' >? 255 then None
          else parseIPv4Fields r false false val' pos (digLen + 1) fields
      else if Ascii.eqb c "." then
        if first || isEmpty r || prevDot then None
        else if pos =? 3 then None
        else parseIPv4Fields r false true 0 (pos + 1) 0 (fields ++ [val])
      else None
  end.

Definition parseIPv4 (s : string) : option Addr :=
  Addr4 <$> parseIPv4Fields s true false 0 0 0 [].

Definition hexVal (c : ascii) : option Z :=
  let n := byteZ c in
  if (48 <=? n) && (n <=? 57) then Some (n - 48)
  else if (97 <=? n) && (n <=? 102) then Some (n - 97 + 10)
  else if (65 <=? n) && (n <=? 70) then Some (n - 65 + 10)
  else None.

(** The hexadecimal group at the head of [s]: at most four digits. *)
Fixpoint hexDigits (s : string) (off acc : Z) : option (Z * Z * string) :=
  match s with
  | EmptyString => Some (off, acc, s)
  | String c r =>
      match hexVal c with
      | Some d =>
          let acc' := acc * 16 + d in
          if off >? 3 then None
          else if acc' >? 65535 then None
          else hexDigits r (off + 1) acc'
      | None => Some (off, acc, s)
      end
  end.

Definition startsWith (c : ascii) (s : string) : bool :=
  match s with
  | String a _ => Ascii.eqb a c
  | EmptyString => false
  end.

(** The group loop of [parseIPv6]; [ip] holds the bytes written so far
    (its length is the index [i]), [ellipsis] is -1 until [::] is seen.
    Every round consumes a byte, so the length of the input bounds the
    number of rounds. *)
Fixpoint parseIPv6Loop (fuel : nat) (s : string) (ip : list Z) (ellipsis : Z)
    : option (string * list Z * Z) :=
  match fuel with
  | O => None
  | S fuel =>
      let i := Z.of_nat (length ip) in
      if 16 <=? i then Some (s, ip, ellipsis)
      else
        '(off, acc, rest) ← hexDigits s 0 0;
        if off =? 0 then None
        else if startsWith "." rest then
          if (ellipsis <? 0) && negb (i =? 12) then None
          else if i + 4 >? 16 then None
          else
            f ← parseIPv4Fields s true false 0 0 0 [];
            Some (EmptyString, ip ++ f, ellipsis)
        else
          let ip := ip ++ [acc / 256; acc mod 256] in
          let i := i + 2 in
          match rest with
          | EmptyString => Some (rest, ip, ellipsis)
          | String c s1 =>
              if negb (Ascii.eqb c ":") then None
              else
                match s1 with
                | EmptyString => None
                | String c2 s2 =>
                    if Ascii.eqb c2 ":" then
                      if 0 <=? ellipsis then None
                      else if isEmpty s2 then Some (s2, ip, i)
                      else parseIPv6Loop fuel s2 ip i
                    else parseIPv6Loop fuel s1 ip ellipsis
                end
          end
  end.

Definition parseIPv6Groups (s : string) (ellipsis : Z) : option Addr :=
  '(s, ip, ellipsis) ← parseIPv6Loop (S (String.length s)) s [] ellipsis;
  if negb (isEmpty s) then None
  else
    let i := length ip in
    if (i <? 16)%nat then
      if ellipsis <? 0 then None
      else
        let e := Z.to_nat ellipsis in
        Some (Addr16 (take e ip ++ replicate (16 - i)%nat 0 ++ drop e ip))
    else if 0 <=? ellipsis then None
    else Some (Addr16 ip).

(** [parseIPv6].  A zone ([%...]) is either empty, an error, or makes
    [net.ParseIP] and [net.ParseCIDR] reject the address, so every input
    with a [%] is refused here. *)
Definition parseIPv6 (s : string) : option Addr :=
  if GoStrings.ContainsByte s "%" then None
  else
    match s with
    | String ":" (String ":" r) =>
        if isEmpty r then Some (Addr16 (replicate 16%nat 0))
        else parseIPv6Groups r 0
    | _ => parseIPv6Groups s (-1)
    end.

(** [netip.ParseAddr]: the first of [.], [:] and [%] picks the parser. *)
Fixpoint ParseAddr_scan (whole s : string) : option Addr :=
  match s with
  | EmptyString => None
  | String c r =>
      if Ascii.eqb c "." then parseIPv4 whole
      else if Ascii.eqb c ":" then parseIPv6 whole
      else if Ascii.eqb c "%" then None
      else ParseAddr_scan whole r
  end.

Definition ParseAddr (s : string) : option Addr := ParseAddr_scan s s.

(** [net.ParseIP]: [None] is the nil [IP]. *)
Definition ParseIP (s : string) : option IP := As16 <$> ParseAddr s.

(** [dtoi] on a string that must be digits throughout. *)
Fixpoint dtoiLoop (s : string) (n : Z) : option Z :=
  match s with
  | EmptyString => Some n
  | String c r =>
      if isDigit c then
        let n' := n * 10 + digitVal c in
        if n' >=? 16777215 then None else dtoiLoop r n'
      else None
  end.

Definition dtoi (s : string) : option Z :=
  if isEmpty s then None else dtoiLoop s 0.

(** [net.CIDRMask(ones, bits)] as [bits/8] bytes. *)
Fixpoint CIDRMask (ones : Z) (nbytes : nat) : list Z :=
  match nbytes with
  | O => []
  | S k =>
      (if ones >=? 8 then 255
       else if ones <=? 0 then 0
       else 255 - (2 ^ (8 - ones) - 1)) :: CIDRMask (ones - 8) k
  end.

Definition isnil (ip : list Z) : bool :=
  match ip with [] => true | _ => false end.

Definition bytesEqual (a b : list Z) : bool :=
  bool_decide (a = b).

Definition andBytes (a m : list Z) : list Z := zip_with Z.land a m.

(** [IP.Mask]. *)
Definition Mask (ip : IP) (mask : list Z) : IP :=
  let mask :=
    if (length mask =? 16)%nat && (length ip =? 4)%nat
       && bytesEqual (take 12 mask) (replicate 12%nat 255)
    then drop 12 mask else mask in
  let ip :=
    if (length mask =? 4)%nat && (length ip =? 16)%nat
       && bytesEqual (take 12 ip) v4InV6Prefix
    then drop 12 ip else ip in
  if negb (length ip =? length mask)%nat then []
  else andBytes ip mask.

(** [IP.To4]: the empty list is nil. *)
Definition To4 (ip : IP) : IP :=
  if (length ip =? 4)%nat then ip
  else if (length ip =? 16)%nat && bytesEqual (take 12 ip) v4InV6Prefix
  then drop 12 ip
  else [].

(** [IP.Equal]. *)
Definition Equal (ip x : IP) : bool :=
  if (length ip =? length x)%nat then bytesEqual ip x
  else if (length ip =? 4)%nat && (length x =? 16)%nat
  then bytesEqual (take 12 x) v4InV6Prefix && bytesEqual ip (drop 12 x)
  else if (length ip =? 16)%nat && (length x =? 4)%nat
  then bytesEqual (take 12 ip) v4InV6Prefix && bytesEqual (drop 12 ip) x
  else false.

(** Splits [s] at its first [/]. *)
Fixpoint cutSlash (s : string) : option (string * string) :=
  match s with
  | EmptyString => None
  | String c r =>
      if Ascii.eqb c "/" then Some (EmptyString, r)
      else '(a, m) ← cutSlash r; Some (String c a, m)
  end.

(** [net.ParseCIDR], keeping the network it returns. *)
Definition ParseCIDR (s : string) : option IPNet :=
  '(addr, mask) ← cutSlash s;
  ipAddr ← ParseAddr addr;
  n ← dtoi mask;
  if BitLen ipAddr <? n then None
  else
    let m := CIDRMask n (Z.to_nat (BitLen ipAddr / 8)) in
    Some (mkIPNet (Mask (As16 ipAddr) m) m).

Definition networkNumberAndMask (n : IPNet) : IP * list Z :=
  let ip4 := To4 (netIP n) in
  let ip := if isnil ip4 then netIP n else ip4 in
  if isnil ip4 && negb (length ip =? 16)%nat then ([], [])
  else if (length (netMask n) =? 4)%nat then
    if negb (length ip =? 4)%nat then ([], []) else (ip, netMask n)
  else if (length (netMask n) =? 16)%nat then
    if (length ip =? 4)%nat then (ip, drop 12 (netMask n)) else (ip, netMask n)
  else ([], []).

(** [IPNet.Contains]. *)
Definition Contains (n : IPNet) (ip : IP) : bool :=
  let '(nn, m) := networkNumberAndMask n in
  let x := To4 ip in
  let ip := if isnil x then ip else x in
  if negb (length ip =? length nn)%nat then false
  else bytesEqual (andBytes nn m) (andBytes ip m).

End GoNet.

(** ** Dynamic values

    The dynamic types that an [interface{}] of the package can hold: what
    [encoding/json] stores in a [map[string]any] (string, float64, bool,
    nil, []any, map[string]any), a [[]string] of a [ConditionValue], and
    the [int], [[]int] and [[]bool] the numeric and boolean operators
    assert. The payload of a float64 is never inspected by the package;
    it is carried as a rational. *)

#[local] Set Warnings "-register-all".

Inductive value : Type :=
| VNil
| VString (s : string)
| VFloat64 (x : Q)
| VBool (b : bool)
| VInt (n : Z)
| VStrings (l : list string)
| VInts (l : list Z)
| VBools (l : list bool)
| VSlice (l : list value)
| VMap (m : list (string * value)).

(** Type assertions [x.(T)]: a panic when the dynamic type is not [T]. *)
Definition assertString (v : value) : exec string :=
  match v with VString s => Done s | _ => Panic TypeAssertion end.
Definition assertInt (v : value) : exec Z :=
  match v with VInt n => Done n | _ => Panic TypeAssertion end.
Definition assertBool (v : value) : exec bool :=
  match v with VBool b => Done b | _ => Panic TypeAssertion end.
Definition assertStrings (v : value) : exec (list string) :=
  match v with VStrings l => Done l | _ => Panic TypeAssertion end.
Definition assertInts (v : value) : exec (list Z) :=
  match v with VInts l => Done l | _ => Panic TypeAssertion end.
Definition assertBools (v : value) : exec (list bool) :=
  match v with VBools l => Done l | _ => Panic TypeAssertion end.

(** ** Condition operators *)

Definition StringEquals := "StringEquals"%string.
Definition StringNotEquals := "StringNotEquals"%string.
Definition StringEqualsIgnoreCase := "StringEqualsIgnoreCase"%string.
Definition StringNotEqualsIgnoreCase := "StringNotEqualsIgnoreCase"%string.
Definition StringLike := "StringLike"%string.
Definition StringNotLike := "StringNotLike"%string.
Definition NumericEquals := "NumericEquals"%string.
Definition NumericNotEquals := "NumericNotEquals"%string.
Definition NumericLessThan := "NumericLessThan"%string.
Definition NumericLessThanEquals := "NumericLessThanEquals"%string.
Definition NumericGreaterThan := "NumericGreaterThan"%string.
Definition NumericGreaterThanEquals := "NumericGreaterThanEquals"%string.
Definition DateEquals := "DateEquals"%string.
Definition DateNotEquals := "DateNotEquals"%string.
Definition DateLessThan := "DateLessThan"%string.
Definition DateLessThanEquals := "DateLessThanEquals"%string.
Definition DateGreaterThan := "DateGreaterThan"%string.
Definition DateGreaterThanEquals := "DateGreaterThanEquals"%string.
Definition Bool := "Bool"%string.
Definition IPAddress := "IPAddress"%string.
Definition NotIPAddress := "NotIPAddress"%string.

Definition ConditionOperatorFunc : Type := value -> value -> exec bool.

(** [anyMatch]: the first element of [values] that [compareFn] accepts
    ends the loop. *)
Fixpoint anyMatch {T : Type} (value : T) (values : list T)
    (compareFn : T -> T -> bool) : bool :=
  match values with
  | [] => false
  | v :: values' =>
      if compareFn value v then true else anyMatch value values' compareFn
  end.

Definition equals {T : Type} `{EqDecision T} (value : T) (values : list T) : bool :=
  anyMatch value values (fun a b => bool_decide (a = b)).

Definition notEquals {T : Type} `{EqDecision T} (value : T) (values : list T) : bool :=
  anyMatch value values (fun a b => negb (bool_decide (a = b))).

(** The constraint [Ordered]: the types with [<] and [<=]. *)
Class Ordered (T : Type) : Type := { lt : T -> T -> bool; le : T -> T -> bool }.

#[global] Instance Ordered_int : Ordered Z := {| lt := Z.ltb; le := Z.leb |}.

Definition lessThan {T : Type} `{Ordered T} (value : T) (values : list T) : bool :=
  anyMatch value values (fun a b => lt a b).

Definition lessThanEquals {T : Type} `{Ordered T} (value : T) (values : list T) : bool :=
  anyMatch value values (fun a b => le a b).

Definition greaterThan {T : Type} `{Ordered T} (value : T) (values : list T) : bool :=
  anyMatch value values (fun a b => lt b a).

Definition greaterThanEquals {T : Type} `{Ordered T} (value : T) (values : list T) : bool :=
  anyMatch value values (fun a b => le b a).

Definition StringEqualsFunc (param1 param2 : value) : exec bool :=
  value ← assertString param1;
  values ← assertStrings param2;
  mret (equals value values).

Definition StringNotEqualsFunc (param1 param2 : value) : exec bool :=
  value ← assertString param1;
  values ← assertStrings param2;
  mret (notEquals value values).

Definition StringEqualsIgnoreCaseFunc (param1 param2 : value) : exec bool :=
  value ← assertString param1;
  values ← assertStrings param2;
  mret (anyMatch value values (fun a b => GoStrings.EqualFold a b)).

Definition StringNotEqualsIgnoreCaseFunc (param1 param2 : value) : exec bool :=
  value ← assertString param1;
  values ← assertStrings param2;
  mret (anyMatch value values (fun a b => negb (GoStrings.EqualFold a b))).

Definition StringLikeFunc (param1 param2 : value) : exec bool :=
  value ← assertString param1;
  values ← assertStrings param2;
  mret (anyMatch value values (fun a b => GoStrings.Contains a b)).

Definition StringNotLikeFunc (param1 param2 : value) : exec bool :=
  value ← assertString param1;
  values ← assertStrings param2;
  mret (anyMatch value values (fun a b => negb (GoStrings.Contains a b))).

Definition NumericEqualsFunc (param1 param2 : value) : exec bool :=
  value ← assertInt param1;
  values ← assertInts param2;
  mret (equals value values).

Definition NumericNotEqualsFunc (param1 param2 : value) : exec bool :=
  value ← assertInt param1;
  values ← assertInts param2;
  mret (notEquals value values).

Definition NumericLessThanFunc (param1 param2 : value) : exec bool :=
  value ← assertInt param1;
  values ← assertInts param2;
  mret (lessThan value values).

Definition NumericLessThanEqualsFunc (param1 param2 : value) : exec bool :=
  value ← assertInt param1;
  values ← assertInts param2;
  mret (lessThanEquals value values).

Definition NumericGreaterThanFunc (param1 param2 : value) : exec bool :=
  value ← assertInt param1;
  values ← assertInts param2;
  mret (greaterThan value values).

Definition NumericGreaterThanEqualsFunc (param1 param2 : value) : exec bool :=
  value ← assertInt param1;
  values ← assertInts param2;
  mret (greaterThanEquals value values).

(** [t, _ := time.Parse(time.RFC3339, s)]: the error is dropped and [t]
    is then the zero [Time]. *)
Definition parseTime (s : string) : GoTime.Time :=
  match GoTime.ParseRFC3339 s with
  | Some t => t
  | None => GoTime.zero
  end.

Definition DateEqualsFunc (param1 param2 : value) : exec bool :=
  value ← assertString param1;
  values ← assertStrings param2;
  mret (anyMatch value values (fun a b =>
    let aTime := parseTime a in
    let bTime := parseTime b in
    GoTime.Equal aTime bTime)).

Definition DateNotEqualsFunc (param1 param2 : value) : exec bool :=
  value ← assertString param1;
  values ← assertStrings param2;
  mret (anyMatch value values (fun a b =>
    let aTime := parseTime a in
    let bTime := parseTime b in
    negb (GoTime.Equal aTime bTime))).

Definition DateLessThanFunc (param1 param2 : value) : exec bool :=
  value ← assertString param1;
  values ← assertStrings param2;
  mret (anyMatch value values (fun a b =>
    let aTime := parseTime a in
    let bTime := parseTime b in
    GoTime.Before aTime bTime)).

Definition DateLessThanEqualsFunc (param1 param2 : value) : exec bool :=
  value ← assertString param1;
  values ← assertStrings param2;
  mret (anyMatch value values (fun a b =>
    let aTime := parseTime a in
    let bTime := parseTime b in
    GoTime.Before aTime bTime || GoTime.Equal aTime bTime)).

Definition DateGreaterThanFunc (param1 param2 : value) : exec bool :=
  value ← assertString param1;
  values ← assertStrings param2;
  mret (anyMatch value values (fun a b =>
    let aTime := parseTime a in
    let bTime := parseTime b in
    GoTime.After aTime bTime)).

Definition DateGreaterThanEqualsFunc (param1 param2 : value) : exec bool :=
  value ← assertString param1;
  values ← assertStrings param2;
  mret (anyMatch value values (fun a b =>
    let aTime := parseTime a in
    let bTime := parseTime b in
    GoTime.After aTime bTime || GoTime.Equal aTime bTime)).

Definition BoolFunc (param1 param2 : value) : exec bool :=
  value ← assertBool param1;
  values ← assertBools param2;
  mret (equals value values).

Definition IPAddressFunc (param1 param2 : value) : exec bool :=
  value ← assertString param1;
  values ← assertStrings param2;
  match GoNet.ParseIP value with
  | None => mret false
  | Some requestIP =>
      mret (anyMatch value values (fun _ policyValue =>
        match GoNet.ParseIP policyValue with
        | None =>
            match GoNet.ParseCIDR policyValue with
            | None => false
            | Some policyNet => GoNet.Contains policyNet requestIP
            end
        | Some policyIP => GoNet.Equal requestIP policyIP
        end))
  end.

Definition NotIPAddressFunc (param1 param2 : value) : exec bool :=
  value ← assertString param1;
  values ← assertStrings param2;
  match GoNet.ParseIP value with
  | None => mret false
  | Some requestIP =>
      mret (anyMatch value values (fun _ policyValue =>
        match GoNet.ParseIP policyValue with
        | None =>
            match GoNet.ParseCIDR policyValue with
            | None => false
            | Some policyNet => negb (GoNet.Contains policyNet requestIP)
            end
        | Some policyIP => negb (GoNet.Equal requestIP policyIP)
        end))
  end.

Definition conditionOperatorFuncMap : gmap string ConditionOperatorFunc :=
  list_to_map
    [ (StringEquals, StringEqualsFunc);
      (StringNotEquals, StringNotEqualsFunc);
      (StringEqualsIgnoreCase, StringEqualsIgnoreCaseFunc);
      (StringNotEqualsIgnoreCase, StringNotEqualsIgnoreCaseFunc);
      (StringLike, StringLikeFunc);
      (StringNotLike, StringNotLikeFunc);
      (NumericEquals, NumericEqualsFunc);
      (NumericNotEquals, NumericNotEqualsFunc);
      (NumericLessThan, NumericLessThanFunc);
      (NumericLessThanEquals, NumericLessThanEqualsFunc);
      (NumericGreaterThan, NumericGreaterThanFunc);
      (NumericGreaterThanEquals, NumericGreaterThanEqualsFunc);
      (DateEquals, DateEqualsFunc);
      (DateNotEquals, DateNotEqualsFunc);
      (DateLessThan, DateLessThanFunc);
      (DateLessThanEquals, DateLessThanEqualsFunc);
      (DateGreaterThan, DateGreaterThanFunc);
      (DateGreaterThanEquals, DateGreaterThanEqualsFunc);
      (Bool, BoolFunc);
      (IPAddress, IPAddressFunc);
      (NotIPAddress, NotIPAddressFunc) ].

(** ** Condition evaluation (cond_matcher.go) *)

Inductive error : Type :=
| ErrJSON (msg : string)        (* encoding/json could not decode *)
| ErrMatchTimeout               (* regexp2: match timeout *)
| ErrCompile (expr : string)    (* regexp2 could not compile [expr] *)
| ErrUnbalanced (s : string)    (* Unbalanced braces in [s] *).

(** [map[string][]string] and [map[string]ConditionValue].  A [range]
    over a Go map visits the entries in an order the runtime picks; a
    condition is given here as its entries in the order they are visited,
    so a statement about every list is a statement about every order. *)
Definition ConditionValue : Type := list (string * list string).
Definition Condition : Type := list (string * ConditionValue).

(** [map[string]any]; written out because the lookup notation needs the
    map type in the open. *)
Abbreviation ConditionContext := (gmap string value).

(** What [json.Unmarshal] left in its target, or its error. *)
Inductive decoded (A : Type) : Type :=
| Decoded (a : A)
| DecodeError (err : error).
Arguments Decoded {A} a.
Arguments DecodeError {A} err.

(** The state of a loop body: go on, or the function returns. *)
Inductive flow : Type :=
| Next
| Return (b : bool) (err : option error).

(** The inner loop, [for condKey, v1 := range cond]. *)
Fixpoint rangeCond (fn : ConditionOperatorFunc) (condsContext : ConditionContext)
    (cond : ConditionValue) : exec flow :=
  match cond with
  | [] => mret Next
  | (condKey, v1) :: cond' =>
      match condsContext !! condKey with
      | None => mret (Return false None)
      | Some x =>
          ok ← fn x (VStrings v1);
          if negb ok then mret (Return false None)
          else rangeCond fn condsContext cond'
      end
  end.

(** The outer loop, [for k, cond := range conds]. *)
Fixpoint rangeConds (condsContext : ConditionContext) (conds : Condition)
    : exec (bool * option error) :=
  match conds with
  | [] => mret (true, None)
  | (k, cond) :: conds' =>
      match conditionOperatorFuncMap !! k with
      | None => mret (false, None)
      | Some fn =>
          f ← rangeCond fn condsContext cond;
          match f with
          | Return b err => mret (b, err)
          | Next => rangeConds condsContext conds'
          end
      end
  end.

(** [ConditionMather], from the two [json.Unmarshal] results on: the
    condition is decoded first, then the context. *)
Definition ConditionMather (condsContext : decoded ConditionContext)
    (conds : decoded Condition) : exec (bool * option error) :=
  match conds with
  | DecodeError err => mret (false, Some err)
  | Decoded conds =>
      match condsContext with
      | DecodeError err => mret (false, Some err)
      | Decoded condsContext => rangeConds condsContext conds
      end
  end.

(** ** Package regexp: [QuoteMeta] *)

Module GoRegexp.

(** The bytes of [`\.+*?()|[]{}^$`]. *)
Definition special (c : ascii) : bool :=
  GoStrings.ContainsByte "\.+*?()|[]{}^$" c.

Fixpoint QuoteMeta (s : string) : string :=
  match s with
  | EmptyString => EmptyString
  | String c r =>
      if special c then String "\" (String c (QuoteMeta r))
      else String c (QuoteMeta r)
  end.

End GoRegexp.

(** ** Package regexp2

    [regexp2.Compile(expr, regexp2.RE2)] and [Regexp.MatchString] for the
    syntax that the wildcard compiler emits: the anchors [^] and [$], the
    dot, a star after a dot or after a character, plain characters and
    escaped metacharacters.  An expression with any other construct is
    refused by this model of [Compile].  Without the single-line option a
    dot stands for every rune but the line feed; with the RE2 option [$]
    holds at the end of the input only. *)

Module Regexp2.

Import UTF8.

Inductive node : Type :=
| Beginning            (* ^ *)
| End_                 (* $ *)
| One (c : rune)       (* the rune c *)
| Notone (c : rune)    (* any rune but c *)
| Oneloop (c : rune)   (* c* *)
| Notoneloop (c : rune) (* [^c]* *).

Record Regexp : Type := mkRegexp { prog : list node; MatchTimeout : Z }.

(** [DefaultMatchTimeout]: no limit ([math.MaxInt64] nanoseconds). *)
Definition DefaultMatchTimeout : Z := 9223372036854775807.

Definition isMeta (c : rune) : bool :=
  bool_decide (c ∈ [92; 46; 43; 42; 63; 40; 41; 124; 91; 93; 123; 125; 94; 36]).

Definition star (n : node) : option node :=
  match n with
  | One c => Some (Oneloop c)
  | Notone c => Some (Notoneloop c)
  | _ => None
  end.

(** The parser: [pending] is the unit that a following star would
    repeat. *)
Fixpoint parse (pending : option node) (rs : list rune) : option (list node) :=
  let flush (k : option (list node)) : option (list node) :=
    match pending with
    | Some n => cons n <$> k
    | None => k
    end in
  match rs with
  | [] => flush (Some [])
  | c :: rest =>
      if c =? 42 (* * *) then
        n ← pending; l ← star n; cons l <$> parse None rest
      else if c =? 94 (* ^ *) then flush (cons Beginning <$> parse None rest)
      else if c =? 36 (* $ *) then flush (cons End_ <$> parse None rest)
      else if c =? 46 (* . *) then flush (parse (Some (Notone 10)) rest)
      else if c =? 92 (* \ *) then
        match rest with
        | e :: rest' =>
            if isMeta e then flush (parse (Some (One e)) rest') else None
        | [] => None
        end
      else if isMeta c then None
      else flush (parse (Some (One c)) rest)
  end.

Definition Compile (expr : string) : option Regexp :=
  p ← parse None (runes expr);
  Some (mkRegexp p DefaultMatchTimeout).

(** Whether the program matches a prefix of [input]; [atStart] holds at
    the first position of the whole input.  A loop tries its longest
    repetition first and gives runes back one at a time. *)
Fixpoint matchHere (p : list node) (atStart : bool) (input : list rune) : bool :=
  match p with
  | [] => true
  | Beginning :: p' => atStart && matchHere p' atStart input
  | End_ :: p' =>
      match input with
      | [] => matchHere p' atStart input
      | _ => false
      end
  | One c :: p' =>
      match input with
      | x :: xs => (x =? c) && matchHere p' false xs
      | [] => false
      end
  | Notone c :: p' =>
      match input with
      | x :: xs => negb (x =? c) && matchHere p' false xs
      | [] => false
      end
  | Oneloop c :: p' =>
      (fix loop (atStart : bool) (input : list rune) : bool :=
         match input with
         | x :: xs =>
             if x =? c then loop false xs || matchHere p' atStart input
             else matchHere p' atStart input
         | [] => matchHere p' atStart input
         end) atStart input
  | Notoneloop c :: p' =>
      (fix loop (atStart : bool) (input : list rune) : bool :=
         match input with
         | x :: xs =>
             if negb (x =? c) then loop false xs || matchHere p' atStart input
             else matchHere p' atStart input
         | [] => matchHere p' atStart input
         end) atStart input
  end.

(** The scan over the start positions. *)
Fixpoint findFirst (p : list node) (atStart : bool) (input : list rune) : bool :=
  matchHere p atStart input ||
  match input with
  | _ :: xs => findFirst p false xs
  | [] => false
  end.

Section Run.

(** Whether a run of an expression on an input outlasts the
    expression's [MatchTimeout] is decided by the clock of the machine:
    it is a parameter here. *)
Variable timedOut : Regexp -> list rune -> bool.

(** [Regexp.MatchString]: a timeout is the only error. *)
Definition MatchString (re : Regexp) (s : string) : bool * option error :=
  let input := runes s in
  if timedOut re input then (false, Some ErrMatchTimeout)
  else (findFirst (prog re) true input, None).

End Run.

End Regexp2.

(** ** Package golang-lru

    A cache of at most [size] entries, the most recently used first. *)

Module Lru.

Section Cache.

Context {V : Type}.

Record Cache : Type := mkCache { size : nat; items : list (string * V) }.

Definition New (size : nat) : Cache := mkCache size [].

Definition find (key : string) (l : list (string * V)) : option V :=
  snd <$> List.find (fun e => String.eqb (fst e) key) l.

Definition remove (key : string) (l : list (string * V)) : list (string * V) :=
  List.filter (fun e => negb (String.eqb (fst e) key)) l.

(** [Cache.Get]: a hit moves the entry to the front. *)
Definition Get (c : Cache) (key : string) : option V * Cache :=
  match find key (items c) with
  | Some v => (Some v, mkCache (size c) ((key, v) :: remove key (items c)))
  | None => (None, c)
  end.

(** [Cache.Add]: a known key is updated and moved to the front; a new
    one is put at the front and the oldest entry leaves once the cache
    holds more than [size]. *)
Definition Add (c : Cache) (key : string) (v : V) : Cache :=
  match find key (items c) with
  | Some _ => mkCache (size c) ((key, v) :: remove key (items c))
  | None =>
      let l := (key, v) :: items c in
      if (size c <? length l)%nat then mkCache (size c) (removelast l)
      else mkCache (size c) l
  end.

End Cache.

Arguments Cache V : clear implicits.

End Lru.

(** ** The pattern matcher (iam_matcher.go) *)

(** A Go result pair [(x, err)] of which exactly one side is set. *)
Inductive result (A : Type) : Type :=
| Ok (a : A)
| Err (err : error).
Arguments Ok {A} a.
Arguments Err {A} err.

(** [time.Millisecond * 250], in nanoseconds. *)
Definition regexp2MatchTimeout : Z := 250 * 1000000.

(** [CompileWildcardRegex]: the loop that fills [buf]. *)
Fixpoint wildcardBuf (pattern : string) : string :=
  match pattern with
  | EmptyString => EmptyString
  | String c r =>
      (if Ascii.eqb c "*" then ".*"%string
       else GoRegexp.QuoteMeta (UTF8.stringOfByte c)) +:+ wildcardBuf r
  end.

Definition CompileWildcardRegex (pattern : string) : result Regexp2.Regexp :=
  let buf := String "^" (wildcardBuf pattern +:+ "$") in
  match Regexp2.Compile buf with
  | None => Err (ErrCompile buf)
  | Some reg => Ok (Regexp2.mkRegexp (Regexp2.prog reg) regexp2MatchTimeout)
  end.

(** What the [interface{}] of a cache entry holds: a [*regexp2.Regexp]
    (possibly the nil pointer) or a value of another type. *)
Inductive cached : Type :=
| CachedRegexp (reg : option Regexp2.Regexp)
| CachedOther.

(** [RegexpMatcher]: the embedded cache.  The field [C] is never read
    or written. *)
Record RegexpMatcher : Type := mkRegexpMatcher { Cache : Lru.Cache cached }.

Definition NewRegexpMatcher (size : Z) : RegexpMatcher :=
  let size := if size <=? 0 then 512 else size in
  mkRegexpMatcher (Lru.New (Z.to_nat size)).

(** [get]: nil (here [None]) on a miss and on an entry that is no
    [*regexp2.Regexp]. *)
Definition get (m : RegexpMatcher) (pattern : string)
    : option Regexp2.Regexp * RegexpMatcher :=
  match Lru.Get (Cache m) pattern with
  | (None, c) => (None, mkRegexpMatcher c)
  | (Some (CachedRegexp reg), c) => (reg, mkRegexpMatcher c)
  | (Some CachedOther, c) => (None, mkRegexpMatcher c)
  end.

Definition set (m : RegexpMatcher) (pattern : string) (reg : Regexp2.Regexp)
    : RegexpMatcher :=
  mkRegexpMatcher (Lru.Add (Cache m) pattern (CachedRegexp (Some reg))).

Section Matcher.

Variable timedOut : Regexp2.Regexp -> list UTF8.rune -> bool.

(** [matches]: the loop over the haystack, threading the matcher. *)
Fixpoint matches (m : RegexpMatcher) (needle : string) (haystack : list string)
    : (bool * option error) * RegexpMatcher :=
  match haystack with
  | [] => ((false, None), m)
  | h :: haystack' =>
      if negb (GoStrings.Contains h "*") then
        if String.eqb h needle then ((true, None), m)
        else matches m needle haystack'
      else
        match get m h with
        | (Some reg, m) =>
            match Regexp2.MatchString timedOut reg needle with
            | (_, Some err) => ((false, Some err), m)
            | (true, None) => ((true, None), m)
            | (false, None) => matches m needle haystack'
            end
        | (None, m) =>
            match CompileWildcardRegex h with
            | Err err => ((false, Some err), m)
            | Ok reg =>
                let m := set m h reg in
                match Regexp2.MatchString timedOut reg needle with
                | (_, Some err) => ((false, Some err), m)
                | (true, None) => ((true, None), m)
                | (false, None) => matches m needle haystack'
                end
            end
        end
  end.

Definition Matches (m : RegexpMatcher) (key1 key2 : string)
    : (bool * option error) * RegexpMatcher :=
  let haystack := GoStrings.Split key2 "," in
  matches m key1 haystack.

Definition MustMatch (m : RegexpMatcher) (key1 key2 : string)
    : bool * RegexpMatcher :=
  match Matches m key1 key2 with
  | ((ok, Some _), m) => (false, m)
  | ((ok, None), m) => (ok, m)
  end.

End Matcher.

(** ** The template compiler *)

(** [delimiterIndices]: the loop at index [i] with the locals [level],
    [idx] and [idxs]; [whole] is the string the error names. *)
Fixpoint delimiterIndicesLoop (whole s : string) (delimiterStart delimiterEnd : ascii)
    (i level idx : Z) (idxs : list Z) : result (list Z) :=
  match s with
  | EmptyString =>
      if negb (level =? 0) then Err (ErrUnbalanced whole) else Ok idxs
  | String c r =>
      if Ascii.eqb c delimiterStart then
        let level := level + 1 in
        let idx := if level =? 1 then i else idx in
        delimiterIndicesLoop whole r delimiterStart delimiterEnd (i + 1) level idx idxs
      else if Ascii.eqb c delimiterEnd then
        let level := level - 1 in
        if level =? 0 then
          delimiterIndicesLoop whole r delimiterStart delimiterEnd (i + 1) level idx
            (idxs ++ [idx; i + 1])
        else if level <? 0 then Err (ErrUnbalanced whole)
        else
          delimiterIndicesLoop whole r delimiterStart delimiterEnd (i + 1) level idx idxs
      else
        delimiterIndicesLoop whole r delimiterStart delimiterEnd (i + 1) level idx idxs
  end.

Definition delimiterIndices (s : string) (delimiterStart delimiterEnd : ascii)
    : result (list Z) :=
  delimiterIndicesLoop s s delimiterStart delimiterEnd 0 0 0 [].

(** The slice expression [s[lo:hi]], which panics out of range. *)
Definition slice (s : string) (lo hi : Z) : exec string :=
  if (0 <=? lo) && (lo <=? hi) && (hi <=? Z.of_nat (String.length s))
  then Done (String.substring (Z.to_nat lo) (Z.to_nat (hi - lo)) s)
  else Panic IndexOutOfRange.

Section TemplateCompiler.

(** [regexp2.Compile(expr, regexp2.RE2)] for the whole syntax of the
    library (a bracketed span of a template is any expression), and the
    assignment to the field [MatchTimeout]. *)
Context {R : Type}.
Variable Compile : string -> option R.
Variable setMatchTimeout : R -> Z -> R.

(** The loop of [CompileRegex] over the pairs of [idxs]; [calls] lists
    the expressions handed to [Compile] so far. *)
Fixpoint compileSpans (tpl : string) (idxs : list Z) (end_ : Z) (pattern : string)
    (calls : list string) : exec (result (Z * string) * list string) :=
  match idxs with
  | [] => Done (Ok (end_, pattern), calls)
  | [_] => Panic IndexOutOfRange
  | lo :: hi :: idxs' =>
      raw ← slice tpl end_ lo;
      patt ← slice tpl (lo + 1) (hi - 1);
      let pattern :=
        pattern +:+ GoRegexp.QuoteMeta raw +:+ "(" +:+ patt +:+ ")" in
      let expr := "^" +:+ patt +:+ "$" in
      match Compile expr with
      | None => Done (Err (ErrCompile expr), calls ++ [expr])
      | Some _ => compileSpans tpl idxs' hi pattern (calls ++ [expr])
      end
  end.

(** [CompileRegex]: the result and the expressions that reached
    [regexp2.Compile]. *)
Definition CompileRegex (tpl : string) (delimiterStart delimiterEnd : ascii)
    : exec (result R * list string) :=
  match delimiterIndices tpl delimiterStart delimiterEnd with
  | Err errBraces => Done (Err errBraces, [])
  | Ok idxs =>
      '(r, calls) ← compileSpans tpl idxs 0 "^" [];
      match r with
      | Err err => Done (Err err, calls)
      | Ok (end_, pattern) =>
          raw ← slice tpl end_ (Z.of_nat (String.length tpl));
          let pattern := pattern +:+ GoRegexp.QuoteMeta raw +:+ "$" in
          match Compile pattern with
          | None => Done (Err (ErrCompile pattern), calls ++ [pattern])
          | Some reg =>
              Done (Ok (setMatchTimeout reg regexp2MatchTimeout), calls ++ [pattern])
          end
      end
  end.

End TemplateCompiler.

(** ** Specification-side definitions *)

(** [decides e P]: the call [e] returns, and returns true exactly when
    [P] holds. *)
Definition decides (e : exec bool) (P : Prop) : Prop :=
  ∃ r : bool, e = Done r ∧ (r = true ↔ P).

(** Chronological order of instants. *)
Definition chron_eq (t u : GoTime.Time) : Prop :=
  GoTime.sec t = GoTime.sec u ∧ GoTime.nsec t = GoTime.nsec u.

Definition chron_lt (t u : GoTime.Time) : Prop :=
  GoTime.sec t < GoTime.sec u ∨
  (GoTime.sec t = GoTime.sec u ∧ GoTime.nsec t < GoTime.nsec u).

(** The instant a date string stands for in a comparison: its RFC3339
    reading, and 0001-01-01T00:00:00Z when it has none. *)
Definition spec_instant (s : string) : GoTime.Time :=
  default GoTime.zero (GoTime.ParseRFC3339 s).

(** An acceptable value admits the request address [ip]: as a literal
    address equal to it, or else as a CIDR block that contains it. *)
Definition spec_admits (ip : GoNet.IP) (policyValue : string) : Prop :=
  (∃ policyIP, GoNet.ParseIP policyValue = Some policyIP
               ∧ GoNet.Equal ip policyIP = true)
  ∨ (GoNet.ParseIP policyValue = None
     ∧ ∃ policyNet, GoNet.ParseCIDR policyValue = Some policyNet
                    ∧ GoNet.Contains policyNet ip = true).

(** The delimiter counter as the specification words it: up on an open
    delimiter, down on a close one; [None] once a close delimiter is met
    with the counter at zero. *)
Fixpoint spec_counter (delimiterStart delimiterEnd : ascii) (s : string)
    (counter : Z) : option Z :=
  match s with
  | EmptyString => Some counter
  | String c r =>
      if Ascii.eqb c delimiterStart
      then spec_counter delimiterStart delimiterEnd r (counter + 1)
      else if Ascii.eqb c delimiterEnd then
        if counter =? 0 then None
        else spec_counter delimiterStart delimiterEnd r (counter - 1)
      else spec_counter delimiterStart delimiterEnd r counter
  end.

Definition spec_unbalanced (delimiterStart delimiterEnd : ascii) (s : string) : Prop :=
  spec_counter delimiterStart delimiterEnd s 0 ≠ Some 0.

(** A pattern element: a piece of a comma-separated pattern list. *)
Definition isElement (p : string) : Prop := GoStrings.Contains p "," = false.

(** A pattern without a wildcard. *)
Definition isLiteral (p : string) : Prop := GoStrings.Contains p "*" = false.

(** The program of a wildcard pattern: a star is any run of runes other
    than the line feed, every other byte [c] is the rune [c]. *)
Fixpoint spec_wildcard (pattern : string) : list Regexp2.node :=
  match pattern with
  | EmptyString => [Regexp2.End_]
  | String c r =>
      (if Ascii.eqb c "*" then Regexp2.Notoneloop 10 else Regexp2.One (byteZ c))
        :: spec_wildcard r
  end.

(** The compile-then-evaluate path on its own: [matches] with no cache
    at hand. *)
Fixpoint spec_matches (timedOut : Regexp2.Regexp -> list UTF8.rune -> bool)
    (needle : string) (haystack : list string) : bool * option error :=
  match haystack with
  | [] => (false, None)
  | h :: haystack' =>
      if negb (GoStrings.Contains h "*") then
        if String.eqb h needle then (true, None)
        else spec_matches timedOut needle haystack'
      else
        match CompileWildcardRegex h with
        | Err err => (false, Some err)
        | Ok reg =>
            match Regexp2.MatchString timedOut reg needle with
            | (_, Some err) => (false, Some err)
            | (true, None) => (true, None)
            | (false, None) => spec_matches timedOut needle haystack'
            end
        end
  end.

(** Every regular expression that a cache holds is the compiled form of
    its key. *)
Definition cacheSound (m : RegexpMatcher) : Prop :=
  ∀ k reg, In (k, CachedRegexp (Some reg)) (Lru.items (Cache m)) →
           CompileWildcardRegex k = Ok reg.

(** The states a matcher goes through: a new one, and the state after a
    call on a state it can be in. *)
Inductive reachable (timedOut : Regexp2.Regexp -> list UTF8.rune -> bool)
    : RegexpMatcher -> Prop :=
| reachable_new size : reachable timedOut (NewRegexpMatcher size)
| reachable_Matches m key1 key2 :
    reachable timedOut m ->
    reachable timedOut (snd (Matches timedOut m key1 key2))
| reachable_MustMatch m key1 key2 :
    reachable timedOut m ->
    reachable timedOut (snd (MustMatch timedOut m key1 key2)).

(** Two clocks: one on which no run times out, one on which every run
    does. *)
Definition neverTimedOut : Regexp2.Regexp -> list UTF8.rune -> bool :=
  fun _ _ => false.

Definition alwaysTimedOut : Regexp2.Regexp -> list UTF8.rune -> bool :=
  fun _ _ => true.

(** The line feed, and a candidate of three bytes with a line feed in
    the middle. *)
Definition LF : ascii := "010"%char.

Definition twoLines : string := String "a" (String LF (String "b" EmptyString)).

(** ** Further specification-side definitions *)

(** No comparator call that the evaluation of [conds] on [ctx] can make
    panics. *)
Definition noPanic (ctx : ConditionContext) (conds : Condition) : Prop :=
  ∀ k cond fn condKey vs x,
    (k, cond) ∈ conds → conditionOperatorFuncMap !! k = Some fn →
    (condKey, vs) ∈ cond → ctx !! condKey = Some x →
    ∃ b, fn x (VStrings vs) = Done b.

(** An attribute entry holds: the attribute is in the context and the
    operator accepts its value. *)
Definition spec_entry_holds (ctx : ConditionContext) (fn : ConditionOperatorFunc)
    (entry : string * list string) : Prop :=
  ∃ x, ctx !! entry.1 = Some x ∧ fn x (VStrings entry.2) = Done true.

(** An operator block holds: the operator is known and all its entries
    hold. *)
Definition spec_block_holds (ctx : ConditionContext)
    (block : string * ConditionValue) : Prop :=
  ∃ fn, conditionOperatorFuncMap !! block.1 = Some fn
        ∧ Forall (spec_entry_holds ctx fn) block.2.

(** Two visiting orders of one condition: the same blocks in another
    order, each with the same entries in another order. *)
Definition sameCondition (conds conds' : Condition) : Prop :=
  ∃ mid, conds ≡ₚ mid
         ∧ Forall2 (λ a b : string * ConditionValue, a.1 = b.1 ∧ a.2 ≡ₚ b.2)
             mid conds'.

(** The operators whose functions assert other types than the evaluator
    passes. *)
Definition mistypedOperators : list string :=
  [NumericEquals; NumericNotEquals; NumericLessThan; NumericLessThanEquals;
   NumericGreaterThan; NumericGreaterThanEquals; Bool].

(** An acceptable value shuts the request address [ip] out: as a
    literal address other than it, or else as a CIDR block that does not
    contain it. *)
Definition spec_excludes (ip : GoNet.IP) (policyValue : string) : Prop :=
  (∃ policyIP, GoNet.ParseIP policyValue = Some policyIP
               ∧ GoNet.Equal ip policyIP = false)
  ∨ (GoNet.ParseIP policyValue = None
     ∧ ∃ policyNet, GoNet.ParseCIDR policyValue = Some policyNet
                    ∧ GoNet.Contains policyNet ip = false).

(** What a compiled wildcard pattern accepts, on the runes of a
    candidate: a star stands for any run of runes without a line feed,
    every other byte [c] of the pattern for the one rune [c]. *)
Inductive globs : string -> list UTF8.rune -> Prop :=
| globs_end : globs EmptyString []
| globs_star p xs ys :
    10 ∉ xs -> globs p ys -> globs (String "*" p) (xs ++ ys)
| globs_byte c p ys :
    c ≠ "*"%char -> globs p ys -> globs (String c p) (byteZ c :: ys).

(** A pattern element accepts a candidate: literally when it has no
    star, as a wildcard otherwise. *)
Definition spec_element_matches (h needle : string) : Prop :=
  (GoStrings.Contains h "*" = false ∧ h = needle)
  ∨ (GoStrings.Contains h "*" = true ∧ globs h (UTF8.runes needle)).

(** No run of an element of the pattern list on the candidate times
    out. *)
Definition noTimeout (timedOut : Regexp2.Regexp -> list UTF8.rune -> bool)
    (needle : string) (haystack : list string) : Prop :=
  ∀ h reg, h ∈ haystack → CompileWildcardRegex h = Ok reg →
           timedOut reg (UTF8.runes needle) = false.

(** All bytes of a string are ASCII. *)
Definition isASCII (s : string) : Prop :=
  Forall (λ c, byteZ c < 128) (list_ascii_of_string s).

(** The invariant of the matcher's cache: a positive capacity that is
    respected, one entry per key, and every entry a wildcard pattern
    with its compiled form. *)
Definition cacheWellFormed (m : RegexpMatcher) : Prop :=
  (0 < Lru.size (Cache m))%nat
  ∧ (length (Lru.items (Cache m)) ≤ Lru.size (Cache m))%nat
  ∧ NoDup (Lru.items (Cache m)).*1
  ∧ ∀ k v, (k, v) ∈ Lru.items (Cache m) →
           GoStrings.Contains k "*" = true
           ∧ ∃ reg, v = CachedRegexp (Some reg) ∧ CompileWildcardRegex k = Ok reg.

(** The first [k] bytes of [s] are there and none is a line feed. *)
Fixpoint noLineFeedIn (k : nat) (s : string) : Prop :=
  match k, s with
  | O, _ => True
  | S k, String c r => c ≠ LF ∧ noLineFeedIn k r
  | S _, EmptyString => False
  end.

(** What [delimiterIndices] and [CompileRegex] are compared with. *)

(** The length of a string as a Go [int]. *)
Definition len (s : string) : Z := Z.of_nat (String.length s).

(** What [CompileRegex] needs of the index list: the spans come in
    pairs, each begins at or after the end of the one before (the first
    at or after [end_]), holds its two delimiters at least, and the last
    one ends at or before [bound]. *)
Fixpoint spansOk (end_ : Z) (idxs : list Z) (bound : Z) : Prop :=
  match idxs with
  | [] => end_ <= bound
  | [_] => False
  | lo :: hi :: rest => end_ <= lo ∧ lo + 2 <= hi ∧ spansOk hi rest bound
  end.

(** Neither delimiter occurs in [s]. *)
Definition delimiterFree (ds de : ascii) (s : string) : Prop :=
  GoStrings.ContainsByte s ds = false ∧ GoStrings.ContainsByte s de = false.

(** A template as its author writes it: literal text and bracketed
    expressions in turn, then the remaining literal text. *)
Fixpoint spec_template (ds de : ascii) (segs : list (string * string)) (last : string)
    : string :=
  match segs with
  | [] => last
  | (lit, patt) :: segs =>
      lit +:+ String ds (patt +:+ String de (spec_template ds de segs last))
  end.

(** Literal text free of delimiters, bracketed expressions with balanced
    delimiters of their own. *)
Definition spec_template_ok (ds de : ascii) (segs : list (string * string))
    (last : string) : Prop :=
  ds ≠ de
  ∧ Forall (λ seg, delimiterFree ds de seg.1
                   ∧ spec_counter ds de seg.2 0 = Some 0) segs
  ∧ delimiterFree ds de last.

(** The first-level delimiter indices of [spec_template], the template
    starting at index [off]. *)
Fixpoint spec_spans (off : Z) (segs : list (string * string)) : list Z :=
  match segs with
  | [] => []
  | (lit, patt) :: segs =>
      let lo := off + len lit in
      let hi := lo + len patt + 2 in
      lo :: hi :: spec_spans hi segs
  end.

(** The expressions of the spans, as [CompileRegex] writes them into the
    expression of the whole template. *)
Fixpoint spec_spans_pattern (segs : list (string * string)) : string :=
  match segs with
  | [] => EmptyString
  | (lit, patt) :: segs =>
      GoRegexp.QuoteMeta lit +:+ "(" +:+ patt +:+ ")" +:+ spec_spans_pattern segs
  end.

(** The expression of the whole template. *)
Definition spec_template_expr (segs : list (string * string)) (last : string) : string :=
  "^" +:+ spec_spans_pattern segs +:+ GoRegexp.QuoteMeta last +:+ "$".

(** The expression of one bracketed span. *)
Definition spec_span_expr (seg : string * string) : string :=
  "^" +:+ seg.2 +:+ "$".

(** * Theorems *)

(** ** The condition evaluator *)

Lemma anyMatch_true {T : Type} (value : T) (values : list T) (f : T -> T -> bool) :
  anyMatch value values f = true ↔ ∃ v, v ∈ values ∧ f value v = true.
Proof.
  induction values as [|v values IH]; simpl.
  - split; [discriminate | intros (v & Hv & _); inversion Hv].
  - destruct (f value v) eqn:Hf.
    + split; [intros _; exists v; split; [left | done] | done].
    + rewrite IH. split.
      * intros (w & Hw & Hfw). exists w. split; [by right | done].
      * intros (w & Hw & Hfw). inversion Hw; subst; [congruence | eauto].
Qed.

Lemma decides_anyMatch {T : Type} (value : T) (values : list T)
    (f : T -> T -> bool) (P : T -> Prop) :
  (∀ b, f value b = true ↔ P b) →
  decides (Done (anyMatch value values f)) (∃ v, v ∈ values ∧ P v).
Proof.
  intros HP. eexists; split; [reflexivity|].
  rewrite anyMatch_true. by setoid_rewrite HP.
Qed.

Lemma Equal_chron t u : GoTime.Equal t u = true ↔ chron_eq t u.
Proof. unfold GoTime.Equal, chron_eq. rewrite andb_true_iff, !Z.eqb_eq. done. Qed.

Lemma Before_chron t u : GoTime.Before t u = true ↔ chron_lt t u.
Proof.
  unfold GoTime.Before, chron_lt.
  rewrite orb_true_iff, andb_true_iff, Z.eqb_eq, !Z.ltb_lt. done.
Qed.

Lemma After_chron t u : GoTime.After t u = true ↔ chron_lt u t.
Proof.
  unfold GoTime.After, chron_lt.
  rewrite orb_true_iff, andb_true_iff, Z.eqb_eq, !Z.gtb_ltb, !Z.ltb_lt.
  intuition lia.
Qed.

Lemma parseTime_spec s : parseTime s = spec_instant s.
Proof. unfold parseTime, spec_instant. by destruct (GoTime.ParseRFC3339 s). Qed.

(** The numeric operators assert [int] and [[]int]; the evaluator hands
    them a JSON-decoded value and a [[]string]. *)
Lemma assertInt_then_assertInts (x : value) (vs : list string) (k : Z -> list Z -> bool) :
  (value ← assertInt x; values ← assertInts (VStrings vs); mret (k value values))
  = Panic TypeAssertion.
Proof. by destruct x. Qed.

(** C1 (the code departs from the claim). Called the way [ConditionMather]
    calls them, the six numeric operators parse nothing and compare
    nothing: each of them panics on its type assertions, for every context
    value and every list of acceptable values; so does [ConditionMather]
    on the context [{"n": 5}] with the condition
    [{"NumericEquals": {"n": ["5"]}}]. *)
Theorem C1_numeric_operators_panic :
  (∀ x vs, NumericEqualsFunc x (VStrings vs) = Panic TypeAssertion)
  ∧ (∀ x vs, NumericNotEqualsFunc x (VStrings vs) = Panic TypeAssertion)
  ∧ (∀ x vs, NumericLessThanFunc x (VStrings vs) = Panic TypeAssertion)
  ∧ (∀ x vs, NumericLessThanEqualsFunc x (VStrings vs) = Panic TypeAssertion)
  ∧ (∀ x vs, NumericGreaterThanFunc x (VStrings vs) = Panic TypeAssertion)
  ∧ (∀ x vs, NumericGreaterThanEqualsFunc x (VStrings vs) = Panic TypeAssertion)
  ∧ ConditionMather (Decoded {[ "n"%string := VFloat64 5 ]})
      (Decoded [(NumericEquals, [("n"%string, ["5"%string])])])
    = Panic TypeAssertion.
Proof.
  repeat (split; [intros x vs; apply assertInt_then_assertInts|]).
  vm_compute. reflexivity.
Qed.

(** On their own types the numeric operators do compare integers. *)
Lemma NumericLessThanFunc_on_ints (n : Z) (ns : list Z) :
  decides (NumericLessThanFunc (VInt n) (VInts ns)) (∃ k, k ∈ ns ∧ n < k).
Proof.
  apply (decides_anyMatch n ns (λ a b : Z, lt a b) (λ b, n < b)).
  intros b. simpl. apply Z.ltb_lt.
Qed.

(** C2 (the code departs from the claim). The comparators are partial:
    [Bool] panics on the condition of the package's own example,
    [{"Bool": {"acs:MFAPresent": ["true"]}}], with the context
    [{"acs:MFAPresent": true}], and a string operator panics on a context
    value that is a JSON number. *)
Theorem C2_comparators_panic :
  ConditionMather (Decoded {[ "acs:MFAPresent"%string := VBool true ]})
    (Decoded [(Bool, [("acs:MFAPresent"%string, ["true"%string])])])
  = Panic TypeAssertion
  ∧ ConditionMather (Decoded {[ "n"%string := VFloat64 5 ]})
      (Decoded [(StringEquals, [("n"%string, ["5"%string])])])
    = Panic TypeAssertion.
Proof. split; vm_compute; reflexivity. Qed.

(** [Bool] panics whatever the context value is. *)
Lemma BoolFunc_panics (x : value) (vs : list string) :
  BoolFunc x (VStrings vs) = Panic TypeAssertion.
Proof. by destruct x. Qed.

(** The extent of the defect: on a string context value every operator
    but the numeric ones and [Bool] returns a boolean. *)
Lemma comparators_return_on_strings (op : string) (fn : ConditionOperatorFunc)
    (s : string) (vs : list string) :
  conditionOperatorFuncMap !! op = Some fn →
  (∃ b, fn (VString s) (VStrings vs) = Done b)
  ∨ op ∈ [NumericEquals; NumericNotEquals; NumericLessThan; NumericLessThanEquals;
          NumericGreaterThan; NumericGreaterThanEquals; Bool].
Proof.
  intros H. apply elem_of_list_to_map_2 in H.
  repeat (apply elem_of_cons in H as [[= -> ->]|H]);
    try (left; eexists; reflexivity);
    try (right; rewrite !elem_of_cons;
         repeat (first [left; reflexivity | right]); fail).
  - left. unfold IPAddressFunc. simpl.
    destruct (GoNet.ParseIP s); eexists; reflexivity.
  - left. unfold NotIPAddressFunc. simpl.
    destruct (GoNet.ParseIP s); eexists; reflexivity.
  - inversion H.
Qed.

(** An inner loop never makes the function return true or an error. *)
Lemma rangeCond_returns fn ctx cond b err :
  rangeCond fn ctx cond = Done (Return b err) → b = false ∧ err = None.
Proof.
  induction cond as [|[condKey v1] cond IH]; simpl; [discriminate|].
  destruct (ctx !! condKey) as [x|]; [|by inversion 1].
  destruct (fn x (VStrings v1)) as [[]|]; simpl; [done | by inversion 1 | done].
Qed.

(** An inner loop that meets an absent attribute does not run through. *)
Lemma rangeCond_absent fn ctx cond condKey :
  condKey ∈ cond.*1 → ctx !! condKey = None →
  rangeCond fn ctx cond ≠ Done Next.
Proof.
  intros Hin Hctx. induction cond as [|[k v1] cond IH]; simpl in *.
  - inversion Hin.
  - destruct (decide (k = condKey)) as [->|Hne].
    + by rewrite Hctx.
    + destruct (ctx !! k) as [x|]; [|done].
      destruct (fn x (VStrings v1)) as [[]|]; simpl; [|done..].
      apply IH. by inversion Hin; subst.
Qed.

Lemma rangeConds_cons ctx k cond conds :
  rangeConds ctx ((k, cond) :: conds) =
  match conditionOperatorFuncMap !! k with
  | None => Done (false, None)
  | Some fn =>
      f ← rangeCond fn ctx cond;
      match f with
      | Return b err => Done (b, err)
      | Next => rangeConds ctx conds
      end
  end.
Proof. reflexivity. Qed.

(** Fail-closed, as far as the code goes: with an unknown operator or an
    absent attribute in the condition, [ConditionMather] returns neither
    true nor an error; it returns false with a nil error or it panics. *)
Lemma rangeConds_fail_closed ctx conds :
  (∃ k, k ∈ conds.*1 ∧ conditionOperatorFuncMap !! k = None)
  ∨ (∃ k cond condKey, (k, cond) ∈ conds ∧ condKey ∈ cond.*1
                       ∧ ctx !! condKey = None) →
  rangeConds ctx conds = Done (false, None)
  ∨ ∃ p, rangeConds ctx conds = Panic p.
Proof.
  induction conds as [|[k cond] conds IH]; intros H.
  - destruct H as [(k & Hk & _)|(k & cond & ck & Hk & _)]; inversion Hk.
  - rewrite rangeConds_cons.
    destruct (conditionOperatorFuncMap !! k) as [fn|] eqn:Hfn; [|by left].
    destruct (rangeCond fn ctx cond) as [[|b err]|p] eqn:Hrc; cbn [mbind exec_bind].
    + apply IH. destruct H as [(k' & Hk' & Hnone)|(k' & cond' & ck & Hk' & Hck & Hctx)].
      * left. exists k'. split; [|done].
        simpl in Hk'. inversion Hk'; subst; [congruence | done].
      * right. exists k', cond', ck. split; [|done].
        inversion Hk'; subst; [|done].
        by destruct (rangeCond_absent fn ctx cond ck).
    + apply rangeCond_returns in Hrc as [-> ->]. by left.
    + right. by exists p.
Qed.

(** C4 (the code departs from the claim). With the context [{"k": true}]
    and the condition [{"Bool": {"k": ["true"]}, "Nope": {"k": ["v"]}}],
    which names an unknown operator, [ConditionMather] panics when the
    range visits [Bool] first, and returns false with a nil error when it
    visits [Nope] first. *)
Theorem C4_unknown_operator_after_panic :
  ConditionMather (Decoded {[ "k"%string := VBool true ]})
    (Decoded [(Bool, [("k"%string, ["true"%string])]);
              ("Nope"%string, [("k"%string, ["v"%string])])])
  = Panic TypeAssertion
  ∧ ConditionMather (Decoded {[ "k"%string := VBool true ]})
      (Decoded [("Nope"%string, [("k"%string, ["v"%string])]);
                (Bool, [("k"%string, ["true"%string])])])
    = Done (false, None).
Proof. split; vm_compute; reflexivity. Qed.

(** C3, counterexample. Unparsable dates do satisfy [DateEquals] and
    [DateLessThan]: two unparsable strings are equal, and an unparsable
    context value is before 2024-01-12T06:59:00Z. *)
Lemma C3_unparsable_dates_match :
  GoTime.ParseRFC3339 "not-a-date" = None
  ∧ GoTime.ParseRFC3339 "neither" = None
  ∧ ConditionMather (Decoded {[ "acs:CurrentTime"%string := VString "not-a-date" ]})
      (Decoded [(DateEquals, [("acs:CurrentTime"%string, ["neither"%string])])])
    = Done (true, None)
  ∧ ConditionMather (Decoded {[ "acs:CurrentTime"%string := VString "not-a-date" ]})
      (Decoded [(DateLessThan,
                 [("acs:CurrentTime"%string, ["2024-01-12T06:59:00Z"%string])])])
    = Done (true, None).
Proof. split; [|split; [|split]]; vm_compute; reflexivity. Qed.

(** C3, as amended. On a string context value every date operator
    returns, reads both sides as RFC3339 timestamps, takes the zero
    instant 0001-01-01T00:00:00Z for a side that cannot be read, and
    holds exactly when some acceptable value stands in the operator's
    chronological relation to the context value. *)
Theorem C3_date_operators_chronological (a : string) (vs : list string) :
  decides (DateEqualsFunc (VString a) (VStrings vs))
    (∃ b, b ∈ vs ∧ chron_eq (spec_instant a) (spec_instant b))
  ∧ decides (DateNotEqualsFunc (VString a) (VStrings vs))
      (∃ b, b ∈ vs ∧ ¬ chron_eq (spec_instant a) (spec_instant b))
  ∧ decides (DateLessThanFunc (VString a) (VStrings vs))
      (∃ b, b ∈ vs ∧ chron_lt (spec_instant a) (spec_instant b))
  ∧ decides (DateLessThanEqualsFunc (VString a) (VStrings vs))
      (∃ b, b ∈ vs ∧ (chron_lt (spec_instant a) (spec_instant b)
                      ∨ chron_eq (spec_instant a) (spec_instant b)))
  ∧ decides (DateGreaterThanFunc (VString a) (VStrings vs))
      (∃ b, b ∈ vs ∧ chron_lt (spec_instant b) (spec_instant a))
  ∧ decides (DateGreaterThanEqualsFunc (VString a) (VStrings vs))
      (∃ b, b ∈ vs ∧ (chron_lt (spec_instant b) (spec_instant a)
                      ∨ chron_eq (spec_instant a) (spec_instant b))).
Proof.
  repeat split;
    (apply (decides_anyMatch a vs); intros b; cbv beta zeta;
     rewrite !parseTime_spec;
     rewrite ?negb_true_iff, ?orb_true_iff, <- ?not_true_iff_false,
       ?Before_chron, ?After_chron, ?Equal_chron; done).
Qed.

(** What the zero instant entails: two unreadable dates are equal and
    neither is before the other. *)
Lemma unparsable_dates_equal (a b : string) :
  GoTime.ParseRFC3339 a = None → GoTime.ParseRFC3339 b = None →
  DateEqualsFunc (VString a) (VStrings [b]) = Done true
  ∧ DateLessThanFunc (VString a) (VStrings [b]) = Done false.
Proof.
  intros Ha Hb. unfold DateEqualsFunc, DateLessThanFunc; simpl.
  unfold parseTime. rewrite Ha, Hb. done.
Qed.

(** An unreadable context value is before every acceptable value that
    reads as a later second than the zero instant. *)
Lemma unparsable_date_before (a b : string) (t : GoTime.Time) :
  GoTime.ParseRFC3339 a = None → GoTime.ParseRFC3339 b = Some t →
  0 < GoTime.sec t →
  DateLessThanFunc (VString a) (VStrings [b]) = Done true.
Proof.
  intros Ha Hb Ht. unfold DateLessThanFunc; simpl.
  unfold parseTime. rewrite Ha, Hb. unfold GoTime.Before; simpl.
  by apply Z.ltb_lt in Ht as ->.
Qed.

(** The dates of the specification. *)
Example DateLessThan_examples :
  ConditionMather (Decoded {[ "acs:CurrentTime"%string := VString "2024-01-10T00:00:00Z" ]})
    (Decoded [(DateLessThan,
               [("acs:CurrentTime"%string, ["2024-01-12T06:59:00Z"%string])])])
  = Done (true, None)
  ∧ ConditionMather (Decoded {[ "acs:CurrentTime"%string := VString "2024-01-10T00:00:00Z" ]})
      (Decoded [(DateLessThan,
                 [("acs:CurrentTime"%string, ["2024-01-05T00:00:00Z"%string])])])
    = Done (false, None).
Proof. split; vm_compute; reflexivity. Qed.

(** C9 (the code departs from the claim). A context value that is no
    string is no IP literal, yet [IPAddress] does not yield false on it:
    the assertion [param1.(string)] panics before anything is parsed, for
    a JSON number, a boolean and null alike; so does [ConditionMather] on
    the contexts [{"acs:SourceIp": 5}] and [{"acs:SourceIp": true}] with
    the condition [{"IPAddress": {"acs:SourceIp": ["192.168.234.0/24"]}}]. *)
Theorem C9_IPAddress_panics_off_strings :
  (∀ x vs, (∀ s, x ≠ VString s) →
     IPAddressFunc x (VStrings vs) = Panic TypeAssertion)
  ∧ IPAddressFunc VNil (VStrings ["192.168.234.0/24"%string]) = Panic TypeAssertion
  ∧ ConditionMather (Decoded {[ "acs:SourceIp"%string := VFloat64 5 ]})
      (Decoded [(IPAddress, [("acs:SourceIp"%string, ["192.168.234.0/24"%string])])])
    = Panic TypeAssertion
  ∧ ConditionMather (Decoded {[ "acs:SourceIp"%string := VBool true ]})
      (Decoded [(IPAddress, [("acs:SourceIp"%string, ["192.168.234.0/24"%string])])])
    = Panic TypeAssertion.
Proof.
  split; [|split; [|split]]; [|vm_compute; reflexivity..].
  intros x vs Hx. destruct x; try reflexivity. by destruct (Hx s).
Qed.

(** X20. The extent of the defect: on a string context value [IPAddress]
    returns false when the value is no IP literal; otherwise it holds
    exactly when some acceptable value is a literal address equal to the
    request address or, not being a literal, a CIDR block that contains
    it. The context 192.168.234.50 is admitted by 192.168.234.0/24 and
    203.0.113.9 is not. *)
Theorem IPAddress_some_value_admits (v : string) (vs : list string) :
  (GoNet.ParseIP v = None →
     IPAddressFunc (VString v) (VStrings vs) = Done false)
  ∧ (∀ requestIP, GoNet.ParseIP v = Some requestIP →
       decides (IPAddressFunc (VString v) (VStrings vs))
         (∃ policyValue, policyValue ∈ vs ∧ spec_admits requestIP policyValue))
  ∧ ConditionMather (Decoded {[ "acs:SourceIp"%string := VString "192.168.234.50" ]})
      (Decoded [(IPAddress, [("acs:SourceIp"%string, ["192.168.234.0/24"%string])])])
    = Done (true, None)
  ∧ ConditionMather (Decoded {[ "acs:SourceIp"%string := VString "203.0.113.9" ]})
      (Decoded [(IPAddress, [("acs:SourceIp"%string, ["192.168.234.0/24"%string])])])
    = Done (false, None).
Proof.
  split; [|split; [|split; vm_compute; reflexivity]].
  - intros Hv. unfold IPAddressFunc; simpl. by rewrite Hv.
  - intros requestIP Hv. unfold IPAddressFunc; simpl. rewrite Hv.
    apply (decides_anyMatch v vs
             (λ _ policyValue,
                match GoNet.ParseIP policyValue with
                | Some policyIP => GoNet.Equal requestIP policyIP
                | None =>
                    match GoNet.ParseCIDR policyValue with
                    | Some policyNet => GoNet.Contains policyNet requestIP
                    | None => false
                    end
                end)
             (λ policyValue, spec_admits requestIP policyValue)).
    intros pv. unfold spec_admits.
    destruct (GoNet.ParseIP pv) as [pip|].
    + split; [intros H; left; eauto|].
      intros [(? & [= <-] & H)|[[=] _]]; done.
    + destruct (GoNet.ParseCIDR pv) as [n|].
      * split; [intros H; right; eauto|].
        intros [(? & [=] & _)|(_ & ? & [= <-] & H)]; done.
      * split; [done|].
        intros [(? & [=] & _)|(_ & ? & [=] & _)].
Qed.

(** [IPAddress] at the request 192.168.234.50 and the block
    192.168.234.0/24. *)
Lemma IPAddress_some_value_admits_witness :
  IPAddressFunc (VString "192.168.234.50") (VStrings ["192.168.234.0/24"%string])
  = Done true.
Proof.
  destruct (IPAddress_some_value_admits "192.168.234.50" ["192.168.234.0/24"%string])
    as (_ & H & _).
  destruct (H [0; 0; 0; 0; 0; 0; 0; 0; 0; 0; 255; 255; 192; 168; 234; 50])
    as (r & -> & Hr); [vm_compute; reflexivity|].
  f_equal. apply Hr. exists "192.168.234.0/24"%string.
  split; [left|]. right. split; [vm_compute; reflexivity|].
  eexists. split; vm_compute; reflexivity.
Defined.

(** ** The pattern matcher *)

Lemma prefix_empty (s : string) : String.prefix EmptyString s = true.
Proof. by destruct s. Qed.

Lemma Contains_one_byte (s : string) (c : ascii) :
  GoStrings.Contains s (String c EmptyString) = GoStrings.ContainsByte s c.
Proof.
  induction s as [|d s IH]; simpl; [done|].
  destruct (ascii_dec c d) as [->|Hne].
  - by rewrite prefix_empty, Ascii.eqb_refl.
  - rewrite IH. by apply not_eq_sym, Ascii.eqb_neq in Hne as ->.
Qed.

(** A string without the separator is the one element of its split. *)
Lemma Split_element (p : string) :
  isElement p → GoStrings.Split p "," = [p].
Proof.
  unfold isElement. rewrite Contains_one_byte.
  induction p as [|c p IH]; simpl; [done|].
  destruct (Ascii.eqb c ",") eqn:Hc; simpl; [done|].
  intros Hp. by rewrite (IH Hp).
Qed.

Section MatcherFacts.

Variable timedOut : Regexp2.Regexp -> list UTF8.rune -> bool.

(** C5. For a pattern element [P] (a piece of a pattern list, so free of
    commas) without a star and every candidate [S], [Matches(S, P)]
    returns true exactly when [S] equals [P], with a nil error in both
    cases; the cache is not touched. *)
Theorem C5_literal_element_exact (m : RegexpMatcher) (S P : string) :
  isLiteral P → isElement P →
  Matches timedOut m S P = ((bool_decide (S = P), None), m).
Proof.
  intros Hlit Hel. unfold Matches. rewrite (Split_element P Hel).
  unfold matches. rewrite Hlit. simpl.
  destruct (String.eqb_spec P S) as [->|Hne].
  - by rewrite bool_decide_eq_true_2.
  - by rewrite bool_decide_eq_false_2.
Qed.

(** C10. [MustMatch] returns true exactly when [Matches] returns true
    with a nil error; whatever [Matches] returns next to an error,
    [MustMatch] returns false; and both leave the matcher in the same
    state. *)
Theorem C10_MustMatch_collapses_errors (m : RegexpMatcher) (key1 key2 : string) :
  (fst (MustMatch timedOut m key1 key2) = true
   ↔ fst (Matches timedOut m key1 key2) = (true, None))
  ∧ (∀ ok err, fst (Matches timedOut m key1 key2) = (ok, Some err) →
       fst (MustMatch timedOut m key1 key2) = false)
  ∧ snd (MustMatch timedOut m key1 key2) = snd (Matches timedOut m key1 key2).
Proof.
  unfold MustMatch.
  destruct (Matches timedOut m key1 key2) as [[ok [err|]] m']; simpl.
  - split; [split; [discriminate | by inversion 1] | done].
  - split; [split; [by intros -> | by inversion 1] | by split].
Qed.

End MatcherFacts.

(** C5 at the literal element [exact-name]. *)
Lemma C5_literal_element_exact_witness :
  Matches neverTimedOut (NewRegexpMatcher 512) "exact-name" "exact-name"
  = ((true, None), NewRegexpMatcher 512)
  ∧ Matches neverTimedOut (NewRegexpMatcher 512) "exact-nam" "exact-name"
    = ((false, None), NewRegexpMatcher 512).
Proof.
  split.
  - apply (C5_literal_element_exact neverTimedOut (NewRegexpMatcher 512)
             "exact-name" "exact-name"); vm_compute; reflexivity.
  - apply (C5_literal_element_exact neverTimedOut (NewRegexpMatcher 512)
             "exact-nam" "exact-name"); vm_compute; reflexivity.
Defined.

(** C10 on a clock on which every run times out: [Matches] returns the
    timeout, [MustMatch] false. *)
Lemma C10_MustMatch_collapses_errors_witness :
  fst (Matches alwaysTimedOut (NewRegexpMatcher 512) "ecs:DescribeInstances" "ecs:Describe*")
  = (false, Some ErrMatchTimeout)
  ∧ fst (MustMatch alwaysTimedOut (NewRegexpMatcher 512) "ecs:DescribeInstances" "ecs:Describe*")
    = false.
Proof.
  split; [vm_compute; reflexivity|].
  apply (C10_MustMatch_collapses_errors alwaysTimedOut (NewRegexpMatcher 512)
           "ecs:DescribeInstances" "ecs:Describe*") with (ok := false) (err := ErrMatchTimeout).
  vm_compute; reflexivity.
Defined.

(** ** The template compiler *)

(** The loop of [delimiterIndices] fails exactly when the counter of the
    specification does not come back to zero. *)
Lemma delimiterIndicesLoop_spec (whole s : string) (ds de : ascii)
    (i level idx : Z) (idxs : list Z) :
  0 <= level →
  match delimiterIndicesLoop whole s ds de i level idx idxs with
  | Err err => err = ErrUnbalanced whole ∧ spec_counter ds de s level ≠ Some 0
  | Ok _ => spec_counter ds de s level = Some 0
  end.
Proof.
  revert i level idx idxs.
  induction s as [|c s IH]; intros i level idx idxs Hlevel; simpl.
  - destruct (Z.eqb_spec level 0) as [->|Hne]; simpl; [done|].
    split; [done | congruence].
  - destruct (Ascii.eqb c ds).
    + apply IH. lia.
    + destruct (Ascii.eqb c de); [|by apply IH].
      destruct (Z.eqb_spec (level - 1) 0) as [H1|H1].
      * replace (level =? 0) with false by lia.
        apply IH. lia.
      * destruct (Z.ltb_spec (level - 1) 0) as [H2|H2].
        -- replace (level =? 0) with true by lia. done.
        -- replace (level =? 0) with false by lia. apply IH. lia.
Qed.

(** C8. [delimiterIndices] returns the structural error exactly for the
    templates whose delimiter counter ends off zero or meets a close
    delimiter at zero; on such a template [CompileRegex] returns that
    error and hands no expression to the regular-expression compiler.
    So it is with [foo:<bar]. *)
Theorem C8_unbalanced_before_compilation (tpl : string) (ds de : ascii) :
  (spec_unbalanced ds de tpl ↔ delimiterIndices tpl ds de = Err (ErrUnbalanced tpl))
  ∧ (spec_unbalanced ds de tpl →
     ∀ (R : Type) (Compile : string → option R) (setMatchTimeout : R → Z → R),
       CompileRegex Compile setMatchTimeout tpl ds de
       = Done (Err (ErrUnbalanced tpl), []))
  ∧ spec_unbalanced "<" ">" "foo:<bar".
Proof.
  assert (Hiff : spec_unbalanced ds de tpl
                 ↔ delimiterIndices tpl ds de = Err (ErrUnbalanced tpl)).
  { unfold spec_unbalanced, delimiterIndices.
    pose proof (delimiterIndicesLoop_spec tpl tpl ds de 0 0 0 [] (Z.le_refl 0)) as H.
    destruct (delimiterIndicesLoop tpl tpl ds de 0 0 0 []) as [idxs|err].
    - split; [done | discriminate].
    - destruct H as [-> H]. done. }
  split; [done|]. split.
  - intros Hunb R Compile setMatchTimeout. unfold CompileRegex.
    apply Hiff in Hunb. by rewrite Hunb.
  - unfold spec_unbalanced. vm_compute. discriminate.
Qed.

(** C8 at the template [foo:<bar]: no expression is compiled. *)
Lemma C8_unbalanced_before_compilation_witness :
  CompileRegex Regexp2.Compile (λ reg t, Regexp2.mkRegexp (Regexp2.prog reg) t)
    "foo:<bar" "<" ">"
  = Done (Err (ErrUnbalanced "foo:<bar"), []).
Proof.
  destruct (C8_unbalanced_before_compilation "foo:<bar" "<" ">") as (_ & H & Hunb).
  apply (H Hunb).
Defined.

(** A balanced template is compiled, span after span and then whole. *)
Example CompileRegex_balanced :
  CompileRegex (λ expr, Some expr) (λ reg _, reg) "foo:bar.baz:<[0-9]{2,10}>" "<" ">"
  = Done (Ok "^foo:bar\.baz:([0-9]{2,10})$"%string,
          ["^[0-9]{2,10}$"%string; "^foo:bar\.baz:([0-9]{2,10})$"%string]).
Proof. vm_compute. reflexivity. Qed.

(** ** The cache *)

Lemma Lru_find_In {V : Type} (key : string) (v : V) (l : list (string * V)) :
  Lru.find key l = Some v → In (key, v) l.
Proof.
  unfold Lru.find. destruct (List.find _ l) as [[k w]|] eqn:Hf; [|done].
  intros [= <-]. apply List.find_some in Hf as [Hin Hk].
  simpl in Hk. by apply String.eqb_eq in Hk as <-.
Qed.

Lemma Lru_remove_In {V : Type} (key : string) (e : string * V) (l : list (string * V)) :
  In e (Lru.remove key l) → In e l.
Proof. unfold Lru.remove. rewrite List.filter_In. tauto. Qed.

Lemma removelast_In {A : Type} (x : A) (l : list A) :
  In x (removelast l) → In x l.
Proof.
  induction l as [|a [|b l] IH]; simpl; [done..|].
  intros [->|H]; [by left | right; by apply IH].
Qed.

(** What a cache holds after [Get] it held before. *)
Lemma Lru_Get_In {V : Type} (c : Lru.Cache V) (key : string) (e : string * V) :
  In e (Lru.items (snd (Lru.Get c key))) → In e (Lru.items c).
Proof.
  unfold Lru.Get. destruct (Lru.find key (Lru.items c)) as [v|] eqn:Hf; simpl; [|done].
  intros [<-|H]; [by apply Lru_find_In | by apply Lru_remove_In in H].
Qed.

Lemma Lru_Get_hit {V : Type} (c : Lru.Cache V) (key : string) (v : V) :
  fst (Lru.Get c key) = Some v → In (key, v) (Lru.items c).
Proof.
  unfold Lru.Get. destruct (Lru.find key (Lru.items c)) as [w|] eqn:Hf; simpl; [|done].
  intros [= <-]. by apply Lru_find_In.
Qed.

(** What a cache holds after [Add] is the new entry or was held before. *)
Lemma Lru_Add_In {V : Type} (c : Lru.Cache V) (key : string) (v : V) (e : string * V) :
  In e (Lru.items (Lru.Add c key v)) → e = (key, v) ∨ In e (Lru.items c).
Proof.
  unfold Lru.Add. destruct (Lru.find key (Lru.items c)) as [w|].
  - cbn [Lru.items]. intros [<-|H]; [by left | right; by apply Lru_remove_In in H].
  - destruct (Lru.size c <? _)%nat; cbn [Lru.items]; intros H.
    + apply removelast_In in H as [<-|H]; [by left | by right].
    + destruct H as [<-|H]; [by left | by right].
Qed.

Lemma removelast_length_cons {A : Type} (a : A) (l : list A) :
  length (removelast (a :: l)) = length l.
Proof.
  revert a. induction l as [|b l IH]; intros a; [done|].
  change (removelast (a :: b :: l)) with (a :: removelast (b :: l)).
  cbn [length]. f_equal. apply IH.
Qed.

Lemma Lru_remove_length {V : Type} (key : string) (w : V) (l : list (string * V)) :
  In (key, w) l → (S (length (Lru.remove key l)) ≤ length l)%nat.
Proof.
  unfold Lru.remove. induction l as [|[k x] l IH]; simpl; [done|].
  pose proof (List.filter_length_le
                (λ e : string * V, negb (String.eqb (fst e) key)) l) as Hle.
  intros [[= -> ->]|Hin].
  - rewrite String.eqb_refl. simpl. lia.
  - specialize (IH Hin). destruct (negb (String.eqb k key)); simpl; lia.
Qed.

(** [Add] never lets the cache grow beyond its size. *)
Lemma Lru_Add_bounded {V : Type} (c : Lru.Cache V) (key : string) (v : V) :
  (0 < Lru.size c)%nat →
  (length (Lru.items c) ≤ Lru.size c)%nat →
  (length (Lru.items (Lru.Add c key v)) ≤ Lru.size (Lru.Add c key v))%nat.
Proof.
  intros Hpos Hlen. unfold Lru.Add.
  destruct (Lru.find key (Lru.items c)) as [w|] eqn:Hf.
  - apply Lru_find_In, Lru_remove_length in Hf. simpl. lia.
  - change (length ((key, v) :: Lru.items c)) with (S (length (Lru.items c))).
    destruct (Nat.ltb_spec (Lru.size c) (S (length (Lru.items c)))) as [H|H];
      cbn [Lru.items Lru.size].
    + rewrite removelast_length_cons. lia.
    + simpl. lia.
Qed.

Section CacheFacts.

Variable timedOut : Regexp2.Regexp -> list UTF8.rune -> bool.

Lemma cacheSound_new (size : Z) : cacheSound (NewRegexpMatcher size).
Proof. intros k reg []. Qed.

Lemma get_sound (m : RegexpMatcher) (h : string) :
  cacheSound m →
  cacheSound (snd (get m h))
  ∧ ∀ reg, fst (get m h) = Some reg → CompileWildcardRegex h = Ok reg.
Proof.
  intros Hm. unfold get.
  pose proof (Lru_Get_In (Cache m) h) as Hin.
  pose proof (Lru_Get_hit (Cache m) h) as Hhit.
  destruct (Lru.Get (Cache m) h) as [[[reg|]|] c]; simpl in *.
  - split; [intros k r Hk; apply Hm, Hin, Hk|].
    intros r ->. by apply Hm, Hhit.
  - split; [intros k r Hk; apply Hm, Hin, Hk | done].
  - split; [intros k r Hk; apply Hm, Hin, Hk | done].
Qed.

Lemma set_sound (m : RegexpMatcher) (h : string) (reg : Regexp2.Regexp) :
  cacheSound m → CompileWildcardRegex h = Ok reg → cacheSound (set m h reg).
Proof.
  intros Hm Hreg k r Hk. unfold set in Hk. simpl in Hk.
  apply Lru_Add_In in Hk as [[= -> ->]|Hk]; [done | by apply Hm].
Qed.

(** On a sound cache the loop computes what the cache-free path
    computes, and leaves a sound cache. *)
Lemma matches_sound (needle : string) (haystack : list string) (m : RegexpMatcher) :
  cacheSound m →
  fst (matches timedOut m needle haystack) = spec_matches timedOut needle haystack
  ∧ cacheSound (snd (matches timedOut m needle haystack)).
Proof.
  revert m. induction haystack as [|h haystack IH]; intros m Hm; simpl; [done|].
  destruct (negb (GoStrings.Contains h "*")).
  { destruct (String.eqb h needle); [done | by apply IH]. }
  destruct (get_sound m h Hm) as [Hm' Hhit].
  destruct (get m h) as [[reg|] m']; simpl in *.
  - rewrite (Hhit reg eq_refl).
    destruct (Regexp2.MatchString timedOut reg needle) as [[] [err|]]; simpl;
      [done.. | by apply IH].
  - destruct (CompileWildcardRegex h) as [reg|err] eqn:Hc; [|done].
    pose proof (set_sound m' h reg Hm' Hc) as Hset.
    destruct (Regexp2.MatchString timedOut reg needle) as [[] [err|]]; simpl;
      [done.. | by apply IH].
Qed.

Lemma reachable_sound (m : RegexpMatcher) : reachable timedOut m → cacheSound m.
Proof.
  induction 1 as [size|m key1 key2 _ IH|m key1 key2 _ IH].
  - apply cacheSound_new.
  - apply (matches_sound key1 (GoStrings.Split key2 ",") m IH).
  - unfold MustMatch.
    pose proof (matches_sound key1 (GoStrings.Split key2 ",") m IH) as [_ H].
    unfold Matches. by destruct (matches timedOut m key1 _) as [[ok [err|]] m'].
Qed.

(** C7. In every state that a matcher can reach, [Matches] returns what
    the compile-then-evaluate path returns without a cache; so two
    reachable states give the same result for the same arguments, and a
    call repeated on the state it left gives its result again. *)
Theorem C7_result_independent_of_cache (m1 m2 : RegexpMatcher) (key1 key2 : string) :
  reachable timedOut m1 → reachable timedOut m2 →
  fst (Matches timedOut m1 key1 key2)
  = spec_matches timedOut key1 (GoStrings.Split key2 ",")
  ∧ fst (Matches timedOut m1 key1 key2) = fst (Matches timedOut m2 key1 key2)
  ∧ fst (Matches timedOut (snd (Matches timedOut m1 key1 key2)) key1 key2)
    = fst (Matches timedOut m1 key1 key2).
Proof.
  intros H1 H2.
  pose proof (reachable_Matches timedOut m1 key1 key2 H1) as H3.
  apply reachable_sound in H1, H2, H3. unfold Matches in *.
  destruct (matches_sound key1 (GoStrings.Split key2 ",") m1 H1) as [E1 _].
  destruct (matches_sound key1 (GoStrings.Split key2 ",") m2 H2) as [E2 _].
  destruct (matches_sound key1 (GoStrings.Split key2 ",") _ H3) as [E3 _].
  rewrite E1, E2, E3. done.
Qed.

End CacheFacts.

(** C7 on a new matcher and on a matcher of two entries that has
    served four wildcard patterns, so that two of them were evicted. *)
Lemma C7_result_independent_of_cache_witness :
  let m1 := NewRegexpMatcher 512 in
  let m2 := snd (Matches neverTimedOut (NewRegexpMatcher 2)
                   "ecs:CreateInstance" "ecs:Describe*,a*,b*,oss:*") in
  length (Lru.items (Cache m2)) = 2%nat
  ∧ fst (Matches neverTimedOut m1 "ecs:DescribeInstances" "ecs:Describe*")
    = fst (Matches neverTimedOut m2 "ecs:DescribeInstances" "ecs:Describe*").
Proof.
  intros m1 m2. split; [vm_compute; reflexivity|].
  apply (C7_result_independent_of_cache neverTimedOut m1 m2
           "ecs:DescribeInstances" "ecs:Describe*").
  - apply reachable_new.
  - apply reachable_Matches, reachable_new.
Defined.

(** ** The wildcard compiler *)

(** A unit waits for a star; anything else after it lets it through. *)
Lemma parse_pending (n : Regexp2.node) (rs : list UTF8.rune) :
  head rs ≠ Some 42 →
  Regexp2.parse (Some n) rs = cons n <$> Regexp2.parse None rs.
Proof.
  destruct rs as [|c rest]; [done|]. intros Hc.
  assert ((c =? 42) = false) as Hc' by (apply Z.eqb_neq; intros ->; by apply Hc).
  cbn [Regexp2.parse]. rewrite Hc'.
  destruct (c =? 94); [done|]. destruct (c =? 36); [done|].
  destruct (c =? 46); [done|]. destruct (c =? 92).
  - destruct rest as [|e rest']; [done|]. by destruct (Regexp2.isMeta e).
  - by destruct (Regexp2.isMeta c).
Qed.

(** What the compiler writes for a byte [c] other than the star reads
    back as the one rune [c], whatever follows, and never begins with a
    star.  All 255 bytes are run through the parser. *)
Lemma quoted_byte_unit (c : ascii) (tail : string) :
  c ≠ "*"%char →
  Regexp2.parse None
    (UTF8.runes (GoRegexp.QuoteMeta (UTF8.stringOfByte c) +:+ tail))
  = Regexp2.parse (Some (Regexp2.One (byteZ c))) (UTF8.runes tail)
  ∧ head (UTF8.runes (GoRegexp.QuoteMeta (UTF8.stringOfByte c) +:+ tail)) ≠ Some 42.
Proof.
  intros Hc.
  destruct c as [b0 b1 b2 b3 b4 b5 b6 b7].
  destruct b0, b1, b2, b3, b4, b5, b6, b7;
    first [ exfalso; apply Hc; reflexivity
          | split; [reflexivity | discriminate] ].
Qed.

Lemma append_assoc3 (a b c : string) : (a +:+ b) +:+ c = a +:+ (b +:+ c).
Proof.
  induction a as [|x a IH]; [done|].
  change (String x ((a +:+ b) +:+ c) = String x (a +:+ (b +:+ c))).
  by rewrite IH.
Qed.

(** The body of the expression, with its closing [$], parses to the
    program of the specification. *)
Lemma wildcardBuf_parse (pattern : string) :
  Regexp2.parse None (UTF8.runes (wildcardBuf pattern +:+ "$"))
  = Some (spec_wildcard pattern)
  ∧ head (UTF8.runes (wildcardBuf pattern +:+ "$")) ≠ Some 42.
Proof.
  induction pattern as [|c r [IHp IHh]].
  - split; [reflexivity | discriminate].
  - cbn [wildcardBuf spec_wildcard].
    destruct (Ascii.eqb_spec c "*") as [->|Hc].
    + change (UTF8.runes ((".*" +:+ wildcardBuf r) +:+ "$"))
        with (46 :: 42 :: UTF8.runes (wildcardBuf r +:+ "$")).
      split; [|discriminate].
      change (Regexp2.parse None (46 :: 42 :: UTF8.runes (wildcardBuf r +:+ "$")))
        with (cons (Regexp2.Notoneloop 10)
                <$> Regexp2.parse None (UTF8.runes (wildcardBuf r +:+ "$"))).
      by rewrite IHp.
    + rewrite append_assoc3.
      destruct (quoted_byte_unit c (wildcardBuf r +:+ "$") Hc) as [-> Hh].
      split; [|done].
      rewrite (parse_pending _ _ IHh), IHp. done.
Qed.

(** The wildcard compiler never fails: the expression it builds is
    anchored at both ends, a star is a run of runes other than the line
    feed, and every other byte of the pattern is matched as the rune of
    that byte value. *)
Lemma CompileWildcardRegex_spec (pattern : string) :
  CompileWildcardRegex pattern
  = Ok (Regexp2.mkRegexp (Regexp2.Beginning :: spec_wildcard pattern)
          regexp2MatchTimeout).
Proof.
  unfold CompileWildcardRegex, Regexp2.Compile.
  change (UTF8.runes (String "^" (wildcardBuf pattern +:+ "$")))
    with (94 :: UTF8.runes (wildcardBuf pattern +:+ "$")).
  change (Regexp2.parse None (94 :: UTF8.runes (wildcardBuf pattern +:+ "$")))
    with (cons Regexp2.Beginning
            <$> Regexp2.parse None (UTF8.runes (wildcardBuf pattern +:+ "$"))).
  destruct (wildcardBuf_parse pattern) as [-> _]. done.
Qed.

(** The loop of a star, unfolded once. *)
Lemma matchHere_Notoneloop (c : UTF8.rune) (p : list Regexp2.node)
    (atStart : bool) (x : UTF8.rune) (xs : list UTF8.rune) :
  Regexp2.matchHere (Regexp2.Notoneloop c :: p) atStart (x :: xs)
  = if negb (x =? c)
    then Regexp2.matchHere (Regexp2.Notoneloop c :: p) false xs
         || Regexp2.matchHere p atStart (x :: xs)
    else Regexp2.matchHere p atStart (x :: xs).
Proof. reflexivity. Qed.

(** A star runs to the end of an input without a line feed. *)
Lemma star_to_end (atStart : bool) (input : list UTF8.rune) :
  10 ∉ input →
  Regexp2.matchHere [Regexp2.Notoneloop 10; Regexp2.End_] atStart input = true.
Proof.
  revert atStart. induction input as [|x xs IH]; intros atStart Hin; [done|].
  rewrite matchHere_Notoneloop.
  assert (x ≠ 10) as Hx by (intros ->; apply Hin; left).
  apply Z.eqb_neq in Hx as ->. simpl negb. cbv iota.
  rewrite IH; [done|]. intros H. apply Hin. by right.
Qed.

(** A star stops at a line feed, where the end anchor fails. *)
Lemma star_stops_at_line_feed (atStart : bool) (input : list UTF8.rune) :
  10 ∈ input →
  Regexp2.matchHere [Regexp2.Notoneloop 10; Regexp2.End_] atStart input = false.
Proof.
  revert atStart. induction input as [|x xs IH]; intros atStart Hin.
  - inversion Hin.
  - rewrite matchHere_Notoneloop.
    destruct (Z.eqb_spec x 10) as [->|Hx]; [done|].
    simpl negb. cbv iota. rewrite IH; [done|].
    inversion Hin; subst; [done | done].
Qed.

Lemma findFirst_here (p : list Regexp2.node) (atStart : bool) (input : list UTF8.rune) :
  Regexp2.matchHere p atStart input = true →
  Regexp2.findFirst p atStart input = true.
Proof. intros H. destruct input; simpl; by rewrite H. Qed.

(** A decoded rune is a line feed only where the byte is one. *)
Lemma DecodeRune_line_feed (c : ascii) (r : string) :
  fst (UTF8.DecodeRune c r) = 10 → byteZ c = 10.
Proof.
  unfold UTF8.DecodeRune, UTF8.RuneError.
  destruct (Z.ltb_spec (byteZ c) 128) as [|Hc]; [done|].
  unfold UTF8.leading, UTF8.cont.
  repeat match goal with
         | |- context [if ?b then _ else _] =>
             let H := fresh "H" in destruct b eqn:H
         | |- context [match ?s with EmptyString => _ | String _ _ => _ end] =>
             destruct s
         end;
    cbn [fst]; try discriminate;
    intros Hx; exfalso; Z.div_mod_to_equations; lia.
Qed.

Lemma runesFrom_line_feed (s : string) (skip : nat) :
  GoStrings.ContainsByte s LF = false → 10 ∉ UTF8.runesFrom skip s.
Proof.
  revert skip. induction s as [|c r IH]; intros skip; simpl.
  - intros _ H. inversion H.
  - intros Hc. apply orb_false_iff in Hc as [Hc Hr].
    destruct skip as [|k]; [|by apply IH].
    pose proof (DecodeRune_line_feed c r) as Hd.
    destruct (UTF8.DecodeRune c r) as [x w]. simpl in Hd.
    intros Hin. inversion Hin as [? ? Hx|? ? ? Hx]; subst.
    + apply Ascii.eqb_neq in Hc. apply Hc.
      specialize (Hd eq_refl). unfold byteZ in Hd.
      apply (f_equal Z.to_N) in Hd. rewrite N2Z.id in Hd.
      apply (f_equal ascii_of_N) in Hd. by rewrite ascii_N_embedding in Hd.
    + by apply (IH (Nat.pred w) Hr).
Qed.

Section WildcardFacts.

Variable timedOut : Regexp2.Regexp -> list UTF8.rune -> bool.

(** The part of the claim C6 that holds: when the run does not time
    out, [Matches(S, "*")] is true for every candidate [S] without a
    line feed (the empty one too), in every state the matcher can reach. *)
Lemma star_matches_one_line (m : RegexpMatcher) (S : string) :
  reachable timedOut m →
  GoStrings.ContainsByte S LF = false →
  timedOut (Regexp2.mkRegexp (Regexp2.Beginning :: spec_wildcard "*")
              regexp2MatchTimeout) (UTF8.runes S) = false →
  fst (Matches timedOut m S "*") = (true, None).
Proof.
  intros Hm HS Ht. apply reachable_sound in Hm.
  unfold Matches.
  destruct (matches_sound timedOut S (GoStrings.Split "*" ",") m Hm) as [-> _].
  change (GoStrings.Split "*" ",") with ["*"%string].
  cbn [spec_matches]. change (GoStrings.Contains "*" "*") with true.
  cbn [negb]. rewrite CompileWildcardRegex_spec.
  unfold Regexp2.MatchString. rewrite Ht. cbn [Regexp2.prog].
  apply (runesFrom_line_feed S 0) in HS.
  rewrite (findFirst_here _ true (UTF8.runes S)); [done|].
  change (true && Regexp2.matchHere [Regexp2.Notoneloop 10; Regexp2.End_]
                    true (UTF8.runes S) = true).
  by rewrite (star_to_end true (UTF8.runes S) HS).
Qed.

End WildcardFacts.

(** The examples of the specification. *)
Example Matches_wildcard_examples :
  fst (Matches neverTimedOut (NewRegexpMatcher 512)
         "ecs:DescribeInstances" "ecs:Describe*") = (true, None)
  ∧ fst (Matches neverTimedOut (NewRegexpMatcher 512)
           "ecs:CreateInstance" "ecs:Describe*") = (false, None)
  ∧ fst (Matches neverTimedOut (NewRegexpMatcher 512)
           "a.b" "a.*") = (true, None)
  ∧ fst (Matches neverTimedOut (NewRegexpMatcher 512)
           "axb" "a.b*") = (false, None).
Proof. repeat split; vm_compute; reflexivity. Qed.

(** The bytes of a pattern are turned into runes one by one, so a
    pattern with a character outside ASCII does not match the
    candidates that begin with that character. *)
Example Matches_bytes_as_runes :
  fst (Matches neverTimedOut (NewRegexpMatcher 512) "école" "é*") = (false, None).
Proof. vm_compute. reflexivity. Qed.

(** C6 (the code departs from the claim). The candidate of the three
    bytes [a], line feed, [b] is not empty, and [Matches] on it with the
    pattern [*] returns false with a nil error; on no clock does it
    return true. *)
Theorem C6_star_rejects_line_feed :
  twoLines ≠ EmptyString
  ∧ fst (Matches neverTimedOut (NewRegexpMatcher 512) twoLines "*") = (false, None)
  ∧ ∀ timedOut,
      fst (fst (Matches timedOut (NewRegexpMatcher 512) twoLines "*")) = false.
Proof.
  split; [discriminate|]. split; [vm_compute; reflexivity|].
  intros timedOut. vm_compute. by destruct (timedOut _ _).
Qed.

(** * Further properties of the code *)

(** A closed string is none of the closed strings of a list. *)
Ltac not_in_strings :=
  let H := fresh "H" in
  intros H;
  repeat (apply elem_of_cons in H as [H|H]; [vm_compute in H; discriminate H|]);
  inversion H.

(** ** The condition evaluator on inputs that make no comparator panic *)

Lemma rangeCond_characterised (fn : ConditionOperatorFunc) (ctx : ConditionContext)
    (cond : ConditionValue) :
  (∀ condKey vs x, (condKey, vs) ∈ cond → ctx !! condKey = Some x →
                   ∃ b, fn x (VStrings vs) = Done b) →
  (rangeCond fn ctx cond = Done Next ∧ Forall (spec_entry_holds ctx fn) cond)
  ∨ (rangeCond fn ctx cond = Done (Return false None)
     ∧ ¬ Forall (spec_entry_holds ctx fn) cond).
Proof.
  induction cond as [|[condKey v1] cond IH]; intros Hnp; simpl.
  - left. split; [done | constructor].
  - destruct (ctx !! condKey) as [x|] eqn:Hx.
    + destruct (Hnp condKey v1 x) as [b Hb]; [left | done |].
      rewrite Hb. simpl. destruct b; simpl.
      * destruct IH as [[-> HF]|[-> HF]].
        { intros ck vs y Hin. apply Hnp. by right. }
        -- left. split; [done|]. constructor; [|done]. by exists x.
        -- right. split; [done|]. intros H. apply HF. by inversion H.
      * right. split; [done|]. intros H. inversion H as [|? ? (y & Hy & Hfn) _]; subst.
        simpl in *. congruence.
    + right. split; [done|]. intros H. inversion H as [|? ? (y & Hy & _) _]; subst.
      simpl in *. congruence.
Qed.

Lemma rangeConds_characterised (ctx : ConditionContext) (conds : Condition) :
  noPanic ctx conds →
  ∃ b : bool, rangeConds ctx conds = Done (b, None)
              ∧ (b = true ↔ Forall (spec_block_holds ctx) conds).
Proof.
  induction conds as [|[k cond] conds IH]; intros Hnp.
  - exists true. split; [done|]. split; [constructor | done].
  - rewrite rangeConds_cons.
    destruct (conditionOperatorFuncMap !! k) as [fn|] eqn:Hfn.
    + destruct (rangeCond_characterised fn ctx cond) as [[-> HF]|[-> HF]].
      { intros ck vs x Hin. apply (Hnp k cond fn); [left | done | done]. }
      * cbn [mbind exec_bind]. destruct IH as (b & -> & Hb).
        { intros k' cond' fn' ck vs x Hin. apply Hnp. by right. }
        exists b. split; [done|]. rewrite Hb. split.
        -- intros H. constructor; [by exists fn | done].
        -- by inversion 1.
      * exists false. split; [done|]. split; [done|].
        intros H. inversion H as [|? ? (fn' & Hfn' & HF') _]; subst. simpl in *.
        rewrite Hfn in Hfn'. injection Hfn' as <-. done.
    + exists false. split; [done|]. split; [done|].
      intros H. inversion H as [|? ? (fn' & Hfn' & _) _]; subst. simpl in *.
      congruence.
Qed.

(** X1. When no comparator call panics, [ConditionMather] returns a nil
    error and the conjunction of the condition: true exactly when every
    operator is known, every attribute it names is in the context and
    every comparator accepts the attribute's value. *)
Theorem ConditionMather_conjunction (ctx : ConditionContext) (conds : Condition) :
  noPanic ctx conds →
  ∃ b : bool,
    ConditionMather (Decoded ctx) (Decoded conds) = Done (b, None)
    ∧ (b = true ↔ Forall (spec_block_holds ctx) conds).
Proof. apply rangeConds_characterised. Qed.

(** String context values and no mistyped operator: no call panics. *)
Lemma noPanic_strings (ctx : ConditionContext) (conds : Condition) :
  (∀ k x, ctx !! k = Some x → ∃ s, x = VString s) →
  (∀ k, k ∈ conds.*1 → k ∉ mistypedOperators) →
  noPanic ctx conds.
Proof.
  intros Hctx Hops k cond fn condKey vs x Hk Hfn Hck Hx.
  destruct (Hctx condKey x Hx) as [s ->].
  destruct (comparators_return_on_strings k fn s vs Hfn) as [H|H]; [done|].
  exfalso. apply (Hops k); [|done].
  apply list_elem_of_fmap. by exists (k, cond).
Qed.

Lemma ConditionMather_conjunction_witness :
  ConditionMather
    (Decoded {[ "acs:UserRole"%string := VString "admin" ]})
    (Decoded [(StringEquals, [("acs:UserRole"%string, ["admin"%string; "superuser"%string])])])
  = Done (true, None).
Proof.
  destruct (ConditionMather_conjunction
              {[ "acs:UserRole"%string := VString "admin" ]}
              [(StringEquals, [("acs:UserRole"%string, ["admin"%string; "superuser"%string])])])
    as (b & E & Hb).
  - apply noPanic_strings.
    + intros k x Hk. apply lookup_singleton_Some in Hk as [_ <-]. by eexists.
    + intros k Hk. apply list_elem_of_singleton in Hk as ->. not_in_strings.
  - refine (eq_trans E _). f_equal. f_equal. apply Hb. constructor; [|constructor].
    exists StringEqualsFunc. split; [vm_compute; reflexivity|].
    constructor; [|constructor].
    exists (VString "admin"). split; vm_compute; reflexivity.
Defined.

Lemma spec_entry_holds_perm (ctx : ConditionContext) (fn : ConditionOperatorFunc)
    (cond cond' : ConditionValue) :
  cond ≡ₚ cond' →
  Forall (spec_entry_holds ctx fn) cond → Forall (spec_entry_holds ctx fn) cond'.
Proof. intros Hp. by rewrite Hp. Qed.

Lemma noPanic_sameCondition (ctx : ConditionContext) (conds conds' : Condition) :
  sameCondition conds conds' → noPanic ctx conds → noPanic ctx conds'.
Proof.
  intros (mid & Hp & H2) Hnp k cond' fn condKey vs x Hk Hfn Hck Hx.
  apply (list_elem_of_lookup_1 conds') in Hk as [i Hi].
  destruct (Forall2_lookup_r _ _ _ _ _ H2 Hi) as ([k0 cond] & Hmid & Hk0 & Hperm).
  simpl in *. subst k0.
  apply (Hnp k cond fn condKey vs x); [|done| |done].
  - rewrite Hp. by apply (list_elem_of_lookup_2 mid i).
  - by rewrite Hperm.
Qed.

Lemma spec_block_holds_sameCondition (ctx : ConditionContext) (conds conds' : Condition) :
  sameCondition conds conds' →
  Forall (spec_block_holds ctx) conds ↔ Forall (spec_block_holds ctx) conds'.
Proof.
  intros (mid & Hp & H2). rewrite Hp. clear Hp.
  induction H2 as [|[k cond] [k' cond'] mid conds' [Hk Hperm] _ IH]; [done|].
  simpl in *. subst k'. rewrite !Forall_cons, IH.
  assert (spec_block_holds ctx (k, cond) ↔ spec_block_holds ctx (k, cond')) as ->; [|done].
  unfold spec_block_holds. simpl.
  split; intros (fn & Hfn & Hall); exists fn; (split; [done|]).
  - by apply (spec_entry_holds_perm ctx fn cond).
  - by apply (spec_entry_holds_perm ctx fn cond').
Qed.

(** X2. The order in which the range statements visit the operators and
    the attributes of a condition does not change the result, when no
    comparator call panics. *)
Theorem ConditionMather_order_independent (ctx : ConditionContext)
    (conds conds' : Condition) :
  sameCondition conds conds' → noPanic ctx conds →
  ConditionMather (Decoded ctx) (Decoded conds)
  = ConditionMather (Decoded ctx) (Decoded conds').
Proof.
  intros Hsame Hnp.
  pose proof (noPanic_sameCondition ctx conds conds' Hsame Hnp) as Hnp'.
  destruct (rangeConds_characterised ctx conds Hnp) as (b & E & Hb).
  destruct (rangeConds_characterised ctx conds' Hnp') as (b' & E' & Hb').
  simpl. rewrite E, E'. f_equal. f_equal.
  apply eq_true_iff_eq. rewrite Hb, Hb'.
  by apply spec_block_holds_sameCondition.
Qed.

Lemma ConditionMather_order_independent_witness :
  ConditionMather
    (Decoded {[ "acs:SourceIp"%string := VString "10.0.0.1";
                "acs:CurrentTime"%string := VString "2024-01-15T00:00:00Z" ]})
    (Decoded [(IPAddress, [("acs:SourceIp"%string, ["10.0.0.1"%string])]);
              (DateLessThan, [("acs:CurrentTime"%string, ["2024-01-12T00:00:00Z"%string])])])
  = ConditionMather
      (Decoded {[ "acs:SourceIp"%string := VString "10.0.0.1";
                  "acs:CurrentTime"%string := VString "2024-01-15T00:00:00Z" ]})
      (Decoded [(DateLessThan, [("acs:CurrentTime"%string, ["2024-01-12T00:00:00Z"%string])]);
                (IPAddress, [("acs:SourceIp"%string, ["10.0.0.1"%string])])]).
Proof.
  apply ConditionMather_order_independent.
  - eexists. split; [apply Permutation_swap|].
    repeat constructor.
  - apply noPanic_strings.
    + intros k x Hk. apply lookup_insert_Some in Hk as [[_ <-]|[_ Hk]]; [by eexists|].
      apply lookup_singleton_Some in Hk as [_ <-]. by eexists.
    + intros k Hk. apply elem_of_cons in Hk as [->|Hk]; [not_in_strings|].
      apply list_elem_of_singleton in Hk as ->. not_in_strings.
Defined.

(** ** The comparators *)

(** [strings.EqualFold] folds runes, not bytes: letters outside ASCII,
    the orbits of three runes, and bytes that are no UTF-8 (each read as
    U+FFFD); a dotless or dotted i is in no orbit with [I] or [i]. *)
Example EqualFold_examples :
  GoStrings.EqualFold "Go" "GO" = true
  ∧ GoStrings.EqualFold "É" "é" = true
  ∧ GoStrings.EqualFold "s" "ſ" = true
  ∧ GoStrings.EqualFold "K" "K" = true
  ∧ GoStrings.EqualFold (String (ascii_of_N 255) EmptyString)
      (String (ascii_of_N 254) EmptyString) = true
  ∧ GoStrings.EqualFold "I" "ı" = false
  ∧ GoStrings.EqualFold "i" "İ" = false
  ∧ GoStrings.EqualFold "Straße" "STRASSE" = false
  ∧ StringEqualsIgnoreCaseFunc (VString "École") (VStrings ["éCOLE"%string])
    = Done true.
Proof. vm_compute. repeat split. Qed.

(** X3. [StringNotEquals] holds when some acceptable value differs from
    the context value; it is not the negation of [StringEquals]: with
    two different acceptable values it holds for every context value,
    and with no acceptable value both operators fail. *)
Theorem StringNotEquals_some_value_differs (x : string) (vs : list string) :
  decides (StringNotEqualsFunc (VString x) (VStrings vs)) (∃ v, v ∈ vs ∧ x ≠ v)
  ∧ decides (StringEqualsFunc (VString x) (VStrings vs)) (x ∈ vs)
  ∧ (∀ a b, a ∈ vs → b ∈ vs → a ≠ b →
       StringNotEqualsFunc (VString x) (VStrings vs) = Done true).
Proof.
  assert (Hne : decides (StringNotEqualsFunc (VString x) (VStrings vs))
                  (∃ v, v ∈ vs ∧ x ≠ v)).
  { apply (decides_anyMatch x vs _ (λ v, x ≠ v)). intros b.
    rewrite negb_true_iff, bool_decide_eq_false. done. }
  split; [done|]. split.
  - destruct (decides_anyMatch x vs (λ a b, bool_decide (a = b)) (λ v, x = v))
      as (r & Hr & Hiff).
    { intros b. apply bool_decide_eq_true. }
    exists r. split; [done|]. rewrite Hiff. split.
    + by intros (v & Hv & ->).
    + intros Hx. by exists x.
  - intros a b Ha Hb Hab. destruct Hne as (r & -> & Hr). f_equal. apply Hr.
    destruct (decide (x = a)) as [->|Hxa]; [by exists b | by exists a].
Qed.

Lemma StringNotEquals_some_value_differs_witness :
  StringNotEqualsFunc (VString "admin") (VStrings ["admin"%string; "guest"%string])
  = Done true.
Proof.
  destruct (StringNotEquals_some_value_differs "admin" ["admin"%string; "guest"%string])
    as (_ & _ & H).
  apply (H "admin"%string "guest"%string); [left | right; left | discriminate].
Defined.

(** X4. Called with an [int] and an [[]int], the six numeric functions
    return and decide the integer comparisons of their names against
    some element of the list. *)
Theorem Numeric_functions_on_ints (n : Z) (ns : list Z) :
  decides (NumericEqualsFunc (VInt n) (VInts ns)) (n ∈ ns)
  ∧ decides (NumericNotEqualsFunc (VInt n) (VInts ns)) (∃ k, k ∈ ns ∧ n ≠ k)
  ∧ decides (NumericLessThanFunc (VInt n) (VInts ns)) (∃ k, k ∈ ns ∧ n < k)
  ∧ decides (NumericLessThanEqualsFunc (VInt n) (VInts ns)) (∃ k, k ∈ ns ∧ n <= k)
  ∧ decides (NumericGreaterThanFunc (VInt n) (VInts ns)) (∃ k, k ∈ ns ∧ k < n)
  ∧ decides (NumericGreaterThanEqualsFunc (VInt n) (VInts ns)) (∃ k, k ∈ ns ∧ k <= n).
Proof.
  split; [|split; [|split; [|split; [|split]]]].
  - destruct (decides_anyMatch n ns (λ a b, bool_decide (a = b)) (λ k, n = k))
      as (r & Hr & Hiff).
    { intros b. apply bool_decide_eq_true. }
    exists r. split; [done|]. rewrite Hiff. split.
    + by intros (v & Hv & ->).
    + intros Hx. by exists n.
  - apply (decides_anyMatch n ns _ (λ k, n ≠ k)). intros b.
    rewrite negb_true_iff, bool_decide_eq_false. done.
  - apply (decides_anyMatch n ns (λ a b : Z, lt a b) (λ k, n < k)).
    intros b. apply Z.ltb_lt.
  - apply (decides_anyMatch n ns (λ a b : Z, le a b) (λ k, n <= k)).
    intros b. apply Z.leb_le.
  - apply (decides_anyMatch n ns (λ a b : Z, lt b a) (λ k, k < n)).
    intros b. apply Z.ltb_lt.
  - apply (decides_anyMatch n ns (λ a b : Z, le b a) (λ k, k <= n)).
    intros b. apply Z.leb_le.
Qed.

(** X5. [NotIPAddress] on a string context value: false when the value
    is no IP literal (as [IPAddress] is, so the two are not complements);
    otherwise true exactly when some acceptable value is a literal
    address other than the request address or, not being a literal, a
    CIDR block that does not contain it. An acceptable value that is
    neither counts for nothing. *)
Theorem NotIPAddress_some_value_excludes (v : string) (vs : list string) :
  (GoNet.ParseIP v = None →
     NotIPAddressFunc (VString v) (VStrings vs) = Done false
     ∧ IPAddressFunc (VString v) (VStrings vs) = Done false)
  ∧ (∀ requestIP, GoNet.ParseIP v = Some requestIP →
       decides (NotIPAddressFunc (VString v) (VStrings vs))
         (∃ policyValue, policyValue ∈ vs ∧ spec_excludes requestIP policyValue)).
Proof.
  split.
  - intros Hv. unfold NotIPAddressFunc, IPAddressFunc; simpl. by rewrite Hv.
  - intros requestIP Hv. unfold NotIPAddressFunc; simpl. rewrite Hv.
    apply (decides_anyMatch v vs
             (λ _ policyValue,
                match GoNet.ParseIP policyValue with
                | Some policyIP => negb (GoNet.Equal requestIP policyIP)
                | None =>
                    match GoNet.ParseCIDR policyValue with
                    | Some policyNet => negb (GoNet.Contains policyNet requestIP)
                    | None => false
                    end
                end)
             (λ policyValue, spec_excludes requestIP policyValue)).
    intros pv. unfold spec_excludes.
    destruct (GoNet.ParseIP pv) as [pip|].
    + rewrite negb_true_iff. split; [intros H; left; eauto|].
      intros [(? & [= <-] & H)|[[=] _]]; done.
    + destruct (GoNet.ParseCIDR pv) as [n|].
      * rewrite negb_true_iff. split; [intros H; right; eauto|].
        intros [(? & [=] & _)|(_ & ? & [= <-] & H)]; done.
      * split; [done|].
        intros [(? & [=] & _)|(_ & ? & [=] & _)].
Qed.

Lemma NotIPAddress_some_value_excludes_witness :
  NotIPAddressFunc (VString "not-an-address") (VStrings ["10.0.0.1"%string]) = Done false
  ∧ IPAddressFunc (VString "not-an-address") (VStrings ["10.0.0.1"%string]) = Done false.
Proof.
  apply (NotIPAddress_some_value_excludes "not-an-address" ["10.0.0.1"%string]).
  vm_compute. reflexivity.
Defined.

Lemma Time_trichotomy (t u : GoTime.Time) :
  GoTime.After t u || GoTime.Equal t u = negb (GoTime.Before t u)
  ∧ GoTime.After t u = negb (GoTime.Before t u || GoTime.Equal t u)
  ∧ GoTime.Before t u && GoTime.Equal t u = false.
Proof.
  unfold GoTime.After, GoTime.Equal, GoTime.Before.
  rewrite !Z.gtb_ltb.
  destruct (Z.ltb_spec (GoTime.sec t) (GoTime.sec u)),
    (Z.ltb_spec (GoTime.sec u) (GoTime.sec t)),
    (Z.eqb_spec (GoTime.sec t) (GoTime.sec u)),
    (Z.ltb_spec (GoTime.nsec t) (GoTime.nsec u)),
    (Z.ltb_spec (GoTime.nsec u) (GoTime.nsec t)),
    (Z.eqb_spec (GoTime.nsec t) (GoTime.nsec u)); simpl; try done; lia.
Qed.

(** X6. Against a single acceptable value the date operators are
    complementary on every pair of strings, parsable or not:
    [DateGreaterThanEquals] is the negation of [DateLessThan],
    [DateGreaterThan] of [DateLessThanEquals] and [DateNotEquals] of
    [DateEquals], and [DateLessThan] excludes [DateEquals]. *)
Theorem Date_operators_complementary (a b : string) :
  ∃ before equal : bool,
    DateLessThanFunc (VString a) (VStrings [b]) = Done before
    ∧ DateEqualsFunc (VString a) (VStrings [b]) = Done equal
    ∧ DateGreaterThanEqualsFunc (VString a) (VStrings [b]) = Done (negb before)
    ∧ DateLessThanEqualsFunc (VString a) (VStrings [b]) = Done (before || equal)
    ∧ DateGreaterThanFunc (VString a) (VStrings [b]) = Done (negb (before || equal))
    ∧ DateNotEqualsFunc (VString a) (VStrings [b]) = Done (negb equal)
    ∧ before && equal = false.
Proof.
  exists (GoTime.Before (parseTime a) (parseTime b)),
    (GoTime.Equal (parseTime a) (parseTime b)).
  destruct (Time_trichotomy (parseTime a) (parseTime b)) as (H1 & H2 & H3).
  unfold DateLessThanFunc, DateEqualsFunc, DateGreaterThanEqualsFunc,
    DateLessThanEqualsFunc, DateGreaterThanFunc, DateNotEqualsFunc.
  cbn [mbind exec_bind assertString assertStrings mret exec_ret anyMatch].
  rewrite <- H1, <- H2.
  repeat split; try done;
    by destruct (GoTime.Before _ _), (GoTime.Equal _ _), (GoTime.After _ _).
Qed.

(** No operator accepts anything against an empty list of acceptable
    values. *)
Lemma no_operator_accepts_nothing (k : string) (fn : ConditionOperatorFunc) (x : value) :
  conditionOperatorFuncMap !! k = Some fn → fn x (VStrings []) ≠ Done true.
Proof.
  intros H. apply elem_of_list_to_map_2 in H.
  repeat (apply elem_of_cons in H as [[= -> ->]|H]);
    try (by destruct x).
  - destruct x as [|s| | | | | | | |]; try done.
    unfold IPAddressFunc; simpl. by destruct (GoNet.ParseIP s).
  - destruct x as [|s| | | | | | | |]; try done.
    unfold NotIPAddressFunc; simpl. by destruct (GoNet.ParseIP s).
  - inversion H.
Qed.

(** X7. An attribute with an empty list of acceptable values denies:
    when no comparator call panics, a condition that holds such an entry
    anywhere evaluates to false with a nil error, under the negated
    operators as well. *)
Theorem empty_acceptable_values_deny (ctx : ConditionContext) (conds : Condition)
    (k condKey : string) (cond : ConditionValue) :
  noPanic ctx conds → (k, cond) ∈ conds → (condKey, []) ∈ cond →
  ConditionMather (Decoded ctx) (Decoded conds) = Done (false, None).
Proof.
  intros Hnp Hk Hck.
  destruct (rangeConds_characterised ctx conds Hnp) as (b & E & Hb).
  simpl. rewrite E. destruct b; [|done]. exfalso.
  destruct Hb as [Hb _]. specialize (Hb eq_refl).
  rewrite Forall_forall in Hb. destruct (Hb _ Hk) as (fn & Hfn & Hall).
  rewrite Forall_forall in Hall. destruct (Hall _ Hck) as (x & _ & Hx).
  by apply (no_operator_accepts_nothing k fn x Hfn).
Qed.

Lemma empty_acceptable_values_deny_witness :
  ConditionMather
    (Decoded {[ "acs:UserRole"%string := VString "admin" ]})
    (Decoded [(StringNotEquals, [("acs:UserRole"%string, [])])])
  = Done (false, None).
Proof.
  apply (empty_acceptable_values_deny _ _ StringNotEquals "acs:UserRole"
           [("acs:UserRole"%string, [])]); [|left|left].
  apply noPanic_strings.
  - intros k x Hk. apply lookup_singleton_Some in Hk as [_ <-]. by eexists.
  - intros k Hk. apply list_elem_of_singleton in Hk as ->. not_in_strings.
Defined.

Lemma append_nil_l (s : string) : EmptyString +:+ s = s.
Proof. reflexivity. Qed.

Lemma append_cons (c : ascii) (a b : string) : String c a +:+ b = String c (a +:+ b).
Proof. reflexivity. Qed.

Lemma prefix_spec (p s : string) :
  String.prefix p s = true ↔ ∃ post, s = p +:+ post.
Proof.
  revert s. induction p as [|c p IH]; intros s.
  - rewrite prefix_empty. split; [intros _; by exists s | done].
  - destruct s as [|d s]; simpl.
    + split; [done | intros (post & H); discriminate H].
    + destruct (ascii_dec c d) as [->|Hne].
      * rewrite IH. split; intros (post & H); exists post.
        -- by rewrite append_cons, <- H.
        -- rewrite append_cons in H. by injection H.
      * split; [done|]. intros (post & H). rewrite append_cons in H.
        injection H as H1 _. congruence.
Qed.

Lemma Contains_unfold (s sub : string) :
  GoStrings.Contains s sub
  = if String.prefix sub s then true
    else match s with
         | EmptyString => false
         | String _ s' => GoStrings.Contains s' sub
         end.
Proof. by destruct s. Qed.

(** [strings.Contains] finds a substring. *)
Lemma Contains_spec (s sub : string) :
  GoStrings.Contains s sub = true ↔ ∃ pre post, s = pre +:+ sub +:+ post.
Proof.
  induction s as [|c s IH].
  - rewrite Contains_unfold. destruct (String.prefix sub EmptyString) eqn:Hp.
    + split; [|done]. intros _. apply prefix_spec in Hp as (post & Hp).
      exists EmptyString, post. by rewrite !append_nil_l.
    + split; [done|]. intros ([|? pre] & post & H).
      * rewrite !append_nil_l in H.
        assert (String.prefix sub EmptyString = true) as Hq
          by (apply prefix_spec; by exists post).
        congruence.
      * rewrite !append_cons in H. discriminate H.
  - rewrite Contains_unfold. destruct (String.prefix sub (String c s)) eqn:Hp.
    + split; [|done]. intros _. apply prefix_spec in Hp as (post & Hp).
      exists EmptyString, post. by rewrite !append_nil_l.
    + rewrite IH. split.
      * intros (pre & post & ->). exists (String c pre), post.
        by rewrite !append_cons.
      * intros ([|d pre] & post & H).
        -- rewrite !append_nil_l in H.
           assert (String.prefix sub (String c s) = true) as Hq
             by (apply prefix_spec; by exists post).
           congruence.
        -- rewrite !append_cons in H. injection H as _ ->. by exists pre, post.
Qed.

(** X8. [StringLike] is substring containment: it holds exactly when
    some acceptable value occurs in the context value, byte for byte (a
    star in an acceptable value is an ordinary byte here); so an empty
    acceptable value makes it hold for every context value. *)
Theorem StringLike_is_containment (x : string) (vs : list string) :
  decides (StringLikeFunc (VString x) (VStrings vs))
    (∃ v, v ∈ vs ∧ ∃ pre post, x = pre +:+ v +:+ post)
  ∧ decides (StringNotLikeFunc (VString x) (VStrings vs))
      (∃ v, v ∈ vs ∧ ¬ ∃ pre post, x = pre +:+ v +:+ post)
  ∧ (EmptyString ∈ vs → StringLikeFunc (VString x) (VStrings vs) = Done true).
Proof.
  assert (H : decides (StringLikeFunc (VString x) (VStrings vs))
                (∃ v, v ∈ vs ∧ ∃ pre post, x = pre +:+ v +:+ post)).
  { apply (decides_anyMatch x vs _ (λ v, ∃ pre post, x = pre +:+ v +:+ post)).
    intros b. apply Contains_spec. }
  split; [done|]. split.
  - apply (decides_anyMatch x vs _ (λ v, ¬ ∃ pre post, x = pre +:+ v +:+ post)).
    intros b. rewrite negb_true_iff, <- not_true_iff_false, Contains_spec. done.
  - intros Hin. destruct H as (r & -> & Hr). f_equal. apply Hr.
    exists EmptyString. split; [done|]. exists EmptyString, x.
    by rewrite !append_nil_l.
Qed.

Lemma StringLike_is_containment_witness :
  StringLikeFunc (VString "anything") (VStrings ["zzz"%string; ""%string]) = Done true.
Proof.
  apply (StringLike_is_containment "anything" ["zzz"%string; ""%string]).
  right. left.
Defined.

(** ** What a wildcard accepts *)

(** With the start anchor in front, only the first position can match. *)
Lemma findFirst_anchored (p : list Regexp2.node) (input : list UTF8.rune) :
  Regexp2.findFirst (Regexp2.Beginning :: p) true input
  = Regexp2.matchHere p true input.
Proof.
  assert (Hlater : ∀ xs, Regexp2.findFirst (Regexp2.Beginning :: p) false xs = false).
  { induction xs as [|x xs IH]; [done|]. simpl. exact IH. }
  destruct input as [|x xs]; simpl.
  - by rewrite orb_false_r.
  - by rewrite Hlater, orb_false_r.
Qed.

(** The loop of a star: some run without a line feed, then the rest of
    the program. *)
Lemma matchHere_star (p : list Regexp2.node) (Q : list UTF8.rune → Prop) :
  (∀ st ys, Regexp2.matchHere p st ys = true ↔ Q ys) →
  ∀ st input,
    Regexp2.matchHere (Regexp2.Notoneloop 10 :: p) st input = true
    ↔ ∃ xs ys, input = xs ++ ys ∧ (10 ∉ xs) ∧ Q ys.
Proof.
  intros HQ st input. revert st.
  induction input as [|x input IH]; intros st.
  - change (Regexp2.matchHere (Regexp2.Notoneloop 10 :: p) st [])
      with (Regexp2.matchHere p st []).
    rewrite HQ. split.
    + intros H. exists [], []. split; [done|]. split; [by inversion 1 | done].
    + intros (xs & ys & Heq & _ & H). symmetry in Heq.
      apply app_eq_nil in Heq as [_ ->]. done.
  - rewrite matchHere_Notoneloop. destruct (Z.eqb_spec x 10) as [->|Hx]; simpl negb; cbv iota.
    + rewrite HQ. split.
      * intros H. exists [], (10 :: input). split; [done|]. split; [by inversion 1 | done].
      * intros ([|a xs] & ys & Heq & Hno & H).
        -- simpl in Heq. by subst ys.
        -- simpl in Heq. injection Heq as <- _. exfalso. apply Hno. left.
    + rewrite orb_true_iff, IH, HQ. split.
      * intros [(xs & ys & -> & Hno & H)|H].
        -- exists (x :: xs), ys. split; [done|]. split; [|done].
           intros Hin. inversion Hin; subst; [done | by apply Hno].
        -- exists [], (x :: input). split; [done|]. split; [by inversion 1 | done].
      * intros ([|a xs] & ys & Heq & Hno & H).
        -- simpl in Heq. subst ys. by right.
        -- simpl in Heq. injection Heq as <- ->. left. exists xs, ys.
           split; [done|]. split; [|done]. intros Hin. apply Hno. by right.
Qed.

(** The backtracking run of a compiled wildcard accepts what the
    pattern describes. *)
Lemma matchHere_wildcard (pattern : string) (st : bool) (input : list UTF8.rune) :
  Regexp2.matchHere (spec_wildcard pattern) st input = true ↔ globs pattern input.
Proof.
  revert st input. induction pattern as [|c p IH]; intros st input.
  - simpl. destruct input as [|x xs].
    + split; [intros _; constructor | done].
    + split; [done | inversion 1].
  - cbn [spec_wildcard]. destruct (Ascii.eqb_spec c "*") as [->|Hc].
    + rewrite (matchHere_star (spec_wildcard p) (globs p) IH). split.
      * intros (xs & ys & -> & Hno & H). by constructor.
      * inversion 1 as [|? xs ys Hno Hg|? ? ? Hne]; subst; [by exists xs, ys | done].
    + destruct input as [|x xs]; simpl.
      * split; [done | inversion 1; subst; done].
      * rewrite andb_true_iff, Z.eqb_eq, IH. split.
        -- intros [-> H]. by constructor.
        -- inversion 1 as [|? as_ ys Hno Hg|? ? ? Hne Hg]; subst; [done | done].
Qed.

Section ListFacts.

Variable timedOut : Regexp2.Regexp -> list UTF8.rune -> bool.

(** X9. On a pattern list without any star [Matches] is membership: it
    returns true exactly when the candidate is one of the comma-separated
    elements, with a nil error, whatever the clock and the cache, and it
    leaves the cache as it was. *)
Theorem Matches_literal_list (m : RegexpMatcher) (S L : string) :
  GoStrings.Contains L "*" = false →
  Matches timedOut m S L
  = ((bool_decide (S ∈ GoStrings.Split L ","), None), m).
Proof.
  intros HL. unfold Matches.
  assert (Hall : Forall (λ h, GoStrings.Contains h "*" = false) (GoStrings.Split L ",")).
  { rewrite Contains_one_byte in HL. setoid_rewrite Contains_one_byte.
    clear -HL. induction L as [|c L IH]; simpl in *.
    - by constructor.
    - apply orb_false_iff in HL as [Hc HL]. specialize (IH HL).
      destruct (Ascii.eqb c ",").
      + constructor; [done | exact IH].
      + destruct (GoStrings.Split L ",") as [|h t].
        { constructor; [simpl; by rewrite Hc | constructor]. }
        inversion IH; subst. constructor; [|done]. simpl. by rewrite Hc. }
  revert Hall. generalize (GoStrings.Split L ","). clear HL.
  intros hs Hall. induction Hall as [|h hs Hh _ IH]; cbn [matches].
  - by rewrite bool_decide_eq_false_2 by inversion 1.
  - rewrite Hh. cbn [negb]. destruct (String.eqb_spec h S) as [->|Hne].
    + rewrite bool_decide_eq_true_2; [done | left].
    + rewrite IH. f_equal. f_equal. apply bool_decide_ext.
      rewrite elem_of_cons. split; [by right | by intros [->|?]].
Qed.

(** The cache-free path is the disjunction over the elements. *)
Lemma spec_matches_disjunction (needle : string) (haystack : list string) :
  noTimeout timedOut needle haystack →
  ∃ b : bool,
    spec_matches timedOut needle haystack = (b, None)
    ∧ (b = true ↔ ∃ h, h ∈ haystack ∧ spec_element_matches h needle).
Proof.
  induction haystack as [|h hs IH]; intros Hnt.
  - exists false. split; [done|]. split; [done | intros (h & Hh & _); inversion Hh].
  - destruct IH as (b & Hb & Hiff).
    { intros h' reg Hh'. apply Hnt. by right. }
    cbn [spec_matches]. destruct (GoStrings.Contains h "*") eqn:Hstar; cbn [negb].
    + rewrite CompileWildcardRegex_spec. unfold Regexp2.MatchString.
      rewrite (Hnt h _ (list_elem_of_here _ _) (CompileWildcardRegex_spec h)).
      cbn [Regexp2.prog]. rewrite findFirst_anchored.
      destruct (Regexp2.matchHere (spec_wildcard h) true (UTF8.runes needle)) eqn:Hm.
      * exists true. split; [done|]. split; [|done]. intros _.
        exists h. split; [left|]. right. split; [done|].
        by apply (matchHere_wildcard h true).
      * exists b. split; [done|]. rewrite Hiff. split.
        -- intros (h' & Hh' & H). exists h'. split; [by right | done].
        -- intros (h' & Hh' & H). apply elem_of_cons in Hh' as [->|Hh']; [|by exists h'].
           destruct H as [[H _]|[_ H]]; [congruence|].
           apply (matchHere_wildcard h true) in H. congruence.
    + destruct (String.eqb_spec h needle) as [->|Hne].
      * exists true. split; [done|]. split; [|done]. intros _.
        exists needle. split; [left | by left].
      * exists b. split; [done|]. rewrite Hiff. split.
        -- intros (h' & Hh' & H). exists h'. split; [by right | done].
        -- intros (h' & Hh' & H). apply elem_of_cons in Hh' as [->|Hh']; [|by exists h'].
           destruct H as [[_ H]|[H _]]; congruence.
Qed.

(** X10. When no run times out, in every state the matcher can reach,
    [Matches] returns a nil error and the disjunction over the elements
    of the pattern list: true exactly when some element accepts the
    candidate, an element without a star by equality and one with a star
    as a wildcard. *)
Theorem Matches_disjunction (m : RegexpMatcher) (S L : string) :
  reachable timedOut m →
  noTimeout timedOut S (GoStrings.Split L ",") →
  ∃ b : bool,
    fst (Matches timedOut m S L) = (b, None)
    ∧ (b = true ↔ ∃ h, h ∈ GoStrings.Split L "," ∧ spec_element_matches h S).
Proof.
  intros Hm Hnt. apply reachable_sound in Hm. unfold Matches.
  destruct (matches_sound timedOut S (GoStrings.Split L ",") m Hm) as [-> _].
  by apply spec_matches_disjunction.
Qed.

End ListFacts.

Lemma Matches_literal_list_witness :
  Matches neverTimedOut (NewRegexpMatcher 512) "c" "a,b,c"
  = ((true, None), NewRegexpMatcher 512).
Proof.
  apply (Matches_literal_list neverTimedOut (NewRegexpMatcher 512) "c" "a,b,c").
  vm_compute. reflexivity.
Defined.

Lemma Matches_disjunction_witness :
  fst (Matches neverTimedOut (NewRegexpMatcher 512) "oss:GetObject" "ecs:Describe*,oss:Get*")
  = (true, None).
Proof.
  destruct (Matches_disjunction neverTimedOut (NewRegexpMatcher 512)
              "oss:GetObject" "ecs:Describe*,oss:Get*") as (b & E & Hb).
  - apply reachable_new.
  - intros h reg _ _. reflexivity.
  - refine (eq_trans E _). f_equal. apply Hb.
    exists "oss:Get*"%string. split; [right; left|].
    right. split; [vm_compute; reflexivity|].
    apply (matchHere_wildcard "oss:Get*" true). vm_compute. reflexivity.
Defined.

(** ** Prefix patterns *)

Lemma byteZ_range (c : ascii) : 0 <= byteZ c < 256.
Proof.
  unfold byteZ. pose proof (N_ascii_bounded c). lia.
Qed.

Lemma byteZ_inj (c d : ascii) : byteZ c = byteZ d → c = d.
Proof.
  unfold byteZ. intros H. apply N2Z.inj in H.
  apply (f_equal ascii_of_N) in H. by rewrite !ascii_N_embedding in H.
Qed.

(** A decoded rune below 128 is the byte it was read from. *)
Lemma DecodeRune_ascii (c : ascii) (r : string) :
  fst (UTF8.DecodeRune c r) < 128 → UTF8.DecodeRune c r = (byteZ c, 1%nat).
Proof.
  unfold UTF8.DecodeRune, UTF8.RuneError.
  destruct (Z.ltb_spec (byteZ c) 128) as [|Hc]; [done|].
  unfold UTF8.leading, UTF8.cont.
  repeat match goal with
         | |- context [if ?b then _ else _] =>
             let H := fresh "H" in destruct b eqn:H
         | |- context [match ?s with EmptyString => _ | String _ _ => _ end] =>
             destruct s
         end;
    cbn [fst]; try (intros Hx; exfalso; lia);
    intros Hx; exfalso; Z.div_mod_to_equations; lia.
Qed.

Lemma runes_ascii_cons (c : ascii) (r : string) :
  byteZ c < 128 → UTF8.runes (String c r) = byteZ c :: UTF8.runes r.
Proof.
  intros Hc. unfold UTF8.runes. cbn [UTF8.runesFrom].
  unfold UTF8.DecodeRune. by apply Z.ltb_lt in Hc as ->.
Qed.

(** The runes of a candidate begin with the bytes of an ASCII string
    exactly when the candidate begins with that string. *)
Lemma runes_ascii_prefix (lit S : string) (ys : list UTF8.rune) :
  isASCII lit →
  UTF8.runes S = (byteZ <$> list_ascii_of_string lit) ++ ys
  ↔ ∃ rest, S = lit +:+ rest ∧ UTF8.runes rest = ys.
Proof.
  unfold isASCII. revert S. induction lit as [|c lit IH]; intros S Hlit.
  - simpl. split; [intros H; by exists S | by intros (rest & -> & <-)].
  - simpl in Hlit. apply Forall_cons in Hlit as [Hc Hlit]. split.
    + destruct S as [|d r]; [discriminate|].
      unfold UTF8.runes. cbn [UTF8.runesFrom list_ascii_of_string fmap list_fmap app].
      pose proof (DecodeRune_ascii d r) as Hd.
      destruct (UTF8.DecodeRune d r) as [x w]. intros [= -> Hrest].
      injection (Hd Hc) as Hcd ->. apply byteZ_inj in Hcd as <-.
      apply (IH r Hlit) in Hrest as (rest & -> & <-). by exists rest.
    + intros (rest & -> & <-). rewrite append_cons, (runes_ascii_cons c _ Hc).
      cbn [list_ascii_of_string fmap list_fmap app]. f_equal.
      apply (IH _ Hlit). by exists rest.
Qed.

Lemma not_line_feed (c : ascii) : 128 <= byteZ c → c ≠ LF.
Proof. intros H ->. vm_compute in H. by apply H. Qed.

(** The bytes that a decoded rune passes over are continuation bytes,
    so none of them is a line feed. *)
Lemma DecodeRune_passes (c : ascii) (r : string) :
  noLineFeedIn (Nat.pred (snd (UTF8.DecodeRune c r))) r.
Proof.
  unfold UTF8.DecodeRune.
  destruct (Z.ltb_spec (byteZ c) 128) as [|Hc]; [done|].
  unfold UTF8.leading, UTF8.cont.
  repeat match goal with
         | |- context [if ?b then _ else _] =>
             let H := fresh "H" in destruct b eqn:H
         | |- context [match ?s with EmptyString => _ | String _ _ => _ end] =>
             destruct s
         end;
    cbn [snd Nat.pred noLineFeedIn]; try exact I;
    repeat split; apply not_line_feed; lia.
Qed.

(** A line feed among the bytes is a line feed among the runes. *)
Lemma runesFrom_keeps_line_feed (s : string) (skip : nat) :
  noLineFeedIn skip s → GoStrings.ContainsByte s LF = true →
  10 ∈ UTF8.runesFrom skip s.
Proof.
  revert skip. induction s as [|c r IH]; intros skip Hskip Hlf; [done|].
  simpl in Hlf. destruct skip as [|k]; cbn [UTF8.runesFrom].
  - pose proof (DecodeRune_passes c r) as Hp.
    destruct (Ascii.eqb_spec c LF) as [->|Hc].
    + left.
    + destruct (UTF8.DecodeRune c r) as [x w]. right. by apply IH.
  - destruct Hskip as [Hc Hk]. apply Ascii.eqb_neq in Hc. rewrite Hc in Hlf.
    by apply IH.
Qed.

Lemma runes_line_feed (s : string) :
  10 ∉ UTF8.runes s ↔ GoStrings.ContainsByte s LF = false.
Proof.
  split.
  - intros H. destruct (GoStrings.ContainsByte s LF) eqn:Hc; [|done].
    exfalso. apply H. by apply (runesFrom_keeps_line_feed s 0).
  - apply (runesFrom_line_feed s 0).
Qed.

Lemma ContainsByte_append (a b : string) (c : ascii) :
  GoStrings.ContainsByte (a +:+ b) c
  = GoStrings.ContainsByte a c || GoStrings.ContainsByte b c.
Proof.
  induction a as [|x a IH]; [done|].
  rewrite append_cons. simpl. by rewrite IH, orb_assoc.
Qed.

(** What a prefix pattern describes. *)
Lemma globs_prefix (lit : string) (rs : list UTF8.rune) :
  GoStrings.ContainsByte lit "*" = false →
  globs (lit +:+ "*") rs
  ↔ ∃ ys, rs = (byteZ <$> list_ascii_of_string lit) ++ ys ∧ 10 ∉ ys.
Proof.
  revert rs. induction lit as [|c lit IH]; intros rs Hlit.
  - rewrite append_nil_l. simpl. split.
    + inversion 1 as [|? xs ys Hno Hg|]; subst; [|done].
      inversion Hg; subst. exists xs. by rewrite app_nil_r.
    + intros (ys & -> & Hno). rewrite <- (app_nil_r ys). constructor; [done | constructor].
  - simpl in Hlit. apply orb_false_iff in Hlit as [Hc Hlit].
    apply Ascii.eqb_neq in Hc. rewrite append_cons. split.
    + inversion 1 as [| |? ? ys Hne Hg]; subst; [done|].
      apply (IH _ Hlit) in Hg as (zs & -> & Hno). by exists zs.
    + intros (ys & -> & Hno). simpl. constructor; [done|].
      apply (IH _ Hlit). by exists ys.
Qed.

Section PrefixFacts.

Variable timedOut : Regexp2.Regexp -> list UTF8.rune -> bool.

(** X11. A prefix pattern: for an ASCII string [lit] without star or
    comma, when the run does not time out, [Matches] on a candidate and
    the pattern [lit] followed by a star returns a nil error and is true
    exactly for the candidates that begin with [lit] and have no line
    feed after it. *)
Theorem Matches_prefix_pattern (m : RegexpMatcher) (S lit : string) :
  reachable timedOut m →
  isLiteral lit → isElement lit → isASCII lit →
  noTimeout timedOut S [lit +:+ "*"] →
  ∃ b : bool,
    fst (Matches timedOut m S (lit +:+ "*")) = (b, None)
    ∧ (b = true ↔ ∃ rest, S = lit +:+ rest ∧ GoStrings.ContainsByte rest LF = false).
Proof.
  intros Hm Hlit Hel Hascii Hnt.
  unfold isLiteral, isElement in *. rewrite Contains_one_byte in Hlit, Hel.
  assert (Hsplit : GoStrings.Split (lit +:+ "*") "," = [lit +:+ "*"]).
  { apply Split_element. unfold isElement.
    by rewrite Contains_one_byte, ContainsByte_append, Hel. }
  destruct (spec_matches_disjunction timedOut S [lit +:+ "*"] Hnt) as (b & E & Hb).
  exists b. split.
  { unfold Matches. rewrite Hsplit. apply reachable_sound in Hm.
    by destruct (matches_sound timedOut S [lit +:+ "*"] m Hm) as [-> _]. }
  rewrite Hb. split.
  - intros (h & Hh & Hmatch). apply list_elem_of_singleton in Hh as ->.
    destruct Hmatch as [[Hno _]|[_ Hg]].
    { rewrite Contains_one_byte, ContainsByte_append in Hno.
      apply orb_false_iff in Hno as [_ Hno]. discriminate Hno. }
    apply (globs_prefix lit _ Hlit) in Hg as (ys & Hrunes & Hno).
    apply (runes_ascii_prefix lit S ys Hascii) in Hrunes as (rest & -> & <-).
    exists rest. split; [done|]. by apply runes_line_feed.
  - intros (rest & -> & Hrest). exists (lit +:+ "*"). split; [left|].
    right. split.
    { rewrite Contains_one_byte, ContainsByte_append. by rewrite orb_true_r. }
    apply (globs_prefix lit _ Hlit). exists (UTF8.runes rest). split.
    + apply (runes_ascii_prefix lit _ _ Hascii). by exists rest.
    + by apply runes_line_feed.
Qed.

End PrefixFacts.

Lemma Matches_prefix_pattern_witness :
  fst (Matches neverTimedOut (NewRegexpMatcher 512) "ecs:DescribeInstances" "ecs:Describe*")
  = (true, None).
Proof.
  destruct (Matches_prefix_pattern neverTimedOut (NewRegexpMatcher 512)
              "ecs:DescribeInstances" "ecs:Describe") as (b & E & Hb).
  - apply reachable_new.
  - vm_compute. reflexivity.
  - vm_compute. reflexivity.
  - unfold isASCII. simpl. repeat constructor.
  - intros h reg _ _. reflexivity.
  - refine (eq_trans E _). f_equal. apply Hb.
    exists "Instances"%string. split; vm_compute; reflexivity.
Defined.

(** ** Timeouts *)

Lemma Split_append (h rest : string) :
  GoStrings.ContainsByte h "," = false →
  GoStrings.Split (h +:+ String "," rest) "," = h :: GoStrings.Split rest ",".
Proof.
  induction h as [|c h IH]; intros Hh.
  - done.
  - simpl in Hh. apply orb_false_iff in Hh as [Hc Hh].
    rewrite append_cons. simpl. by rewrite Hc, (IH Hh).
Qed.

Section TimeoutFacts.

Variable timedOut : Regexp2.Regexp -> list UTF8.rune -> bool.

(** X12. A timeout ends the scan of the pattern list: when the run of a
    wildcard element on the candidate times out, [Matches] returns false
    with the timeout error whatever follows the element in the list, be
    it the candidate itself; with the candidate in front of that element
    the same list gives true. *)
Theorem timeout_ends_the_scan (m : RegexpMatcher) (S h rest : string) :
  reachable timedOut m →
  GoStrings.Contains h "*" = true → isElement h →
  timedOut (Regexp2.mkRegexp (Regexp2.Beginning :: spec_wildcard h) regexp2MatchTimeout)
    (UTF8.runes S) = true →
  fst (Matches timedOut m S (h +:+ String "," rest)) = (false, Some ErrMatchTimeout)
  ∧ (isLiteral S → isElement S →
     fst (Matches timedOut m S (h +:+ String "," S)) = (false, Some ErrMatchTimeout)
     ∧ fst (Matches timedOut m S (S +:+ String "," h)) = (true, None)).
Proof.
  intros Hm Hstar Hel Ht. apply reachable_sound in Hm.
  unfold isElement in Hel. rewrite Contains_one_byte in Hel.
  assert (Hfirst : ∀ tail,
             fst (Matches timedOut m S (h +:+ String "," tail))
             = (false, Some ErrMatchTimeout)).
  { intros tail. unfold Matches. rewrite (Split_append h tail Hel).
    destruct (matches_sound timedOut S (h :: GoStrings.Split tail ",") m Hm) as [-> _].
    cbn [spec_matches]. rewrite Hstar. cbn [negb].
    rewrite CompileWildcardRegex_spec. unfold Regexp2.MatchString. by rewrite Ht. }
  split; [apply Hfirst|]. intros HlitS HelS. split; [apply Hfirst|].
  unfold isElement in HelS. rewrite Contains_one_byte in HelS.
  unfold Matches. rewrite (Split_append S h HelS).
  destruct (matches_sound timedOut S (S :: GoStrings.Split h ",") m Hm) as [-> _].
  cbn [spec_matches]. unfold isLiteral in HlitS. rewrite HlitS. cbn [negb].
  by rewrite String.eqb_refl.
Qed.

End TimeoutFacts.

Lemma timeout_ends_the_scan_witness :
  fst (Matches alwaysTimedOut (NewRegexpMatcher 512) "ecs:Stop" "ecs:*,ecs:Stop")
  = (false, Some ErrMatchTimeout)
  ∧ fst (Matches alwaysTimedOut (NewRegexpMatcher 512) "ecs:Stop" "ecs:Stop,ecs:*")
    = (true, None).
Proof.
  destruct (timeout_ends_the_scan alwaysTimedOut (NewRegexpMatcher 512)
              "ecs:Stop" "ecs:*" "ecs:Stop") as (_ & H).
  - apply reachable_new.
  - vm_compute. reflexivity.
  - vm_compute. reflexivity.
  - reflexivity.
  - apply H; vm_compute; reflexivity.
Defined.

(** ** The cache of the matcher *)

Lemma Lru_find_None {V : Type} (key : string) (l : list (string * V)) :
  Lru.find key l = None → key ∉ l.*1.
Proof.
  unfold Lru.find. induction l as [|[k v] l IH]; simpl; [by inversion 2|].
  destruct (String.eqb_spec k key) as [->|Hne]; simpl; [done|].
  intros H Hin. apply elem_of_cons in Hin as [->|Hin]; [done | by apply IH].
Qed.

Lemma Lru_remove_keys {V : Type} (key : string) (l : list (string * V)) :
  (key ∉ (Lru.remove key l).*1)
  ∧ (NoDup l.*1 → NoDup (Lru.remove key l).*1)
  ∧ (∀ k, k ∈ (Lru.remove key l).*1 → k ∈ l.*1).
Proof.
  unfold Lru.remove. induction l as [|[k v] l (IH1 & IH2 & IH3)]; simpl.
  - split; [by inversion 1|]. split; [done | done].
  - destruct (String.eqb_spec k key) as [->|Hne]; simpl.
    + split; [done|]. split.
      * intros Hnd. apply NoDup_cons in Hnd as [_ Hnd]. by apply IH2.
      * intros k' Hk'. right. by apply IH3.
    + split; [|split].
      * intros Hin. apply elem_of_cons in Hin as [->|Hin]; [done | by apply IH1].
      * intros Hnd. apply NoDup_cons in Hnd as [Hk Hnd]. apply NoDup_cons. split.
        -- intros Hin. apply Hk. by apply IH3.
        -- by apply IH2.
      * intros k' Hk'. apply elem_of_cons in Hk' as [->|Hk']; [left | right; by apply IH3].
Qed.

Lemma removelast_keys {V : Type} (l : list (string * V)) :
  NoDup l.*1 → NoDup (removelast l).*1.
Proof.
  induction l as [|a [|b l] IH]; [done | by constructor|].
  intros Hnd. change (removelast (a :: b :: l)) with (a :: removelast (b :: l)).
  rewrite fmap_cons in *. apply NoDup_cons in Hnd as [Ha Hnd].
  apply NoDup_cons. split; [|by apply IH].
  intros Hin. apply Ha. apply list_elem_of_fmap in Hin as (e & -> & He).
  apply list_elem_of_fmap. exists e. split; [done|].
  apply list_elem_of_In, removelast_In, list_elem_of_In, He.
Qed.

Section CacheInvariant.

Variable timedOut : Regexp2.Regexp -> list UTF8.rune -> bool.

Lemma cacheWellFormed_new (size : Z) : cacheWellFormed (NewRegexpMatcher size).
Proof.
  unfold cacheWellFormed, NewRegexpMatcher. simpl. split; [|split; [|split]].
  - destruct (Z.leb_spec size 0); lia.
  - lia.
  - constructor.
  - intros k v Hin. inversion Hin.
Qed.

Lemma get_wellFormed (m : RegexpMatcher) (h : string) :
  cacheWellFormed m → cacheWellFormed (snd (get m h)).
Proof.
  intros (Hpos & Hlen & Hnd & Hall).
  assert (Hget : snd (get m h) = mkRegexpMatcher (snd (Lru.Get (Cache m) h))).
  { unfold get. by destruct (Lru.Get (Cache m) h) as [[[reg|]|] c]. }
  rewrite Hget. unfold cacheWellFormed, Lru.Get. simpl.
  destruct (Lru.find h (Lru.items (Cache m))) as [v|] eqn:Hf; simpl; [|done].
  apply Lru_find_In in Hf.
  destruct (Lru_remove_keys h (Lru.items (Cache m))) as (Hk1 & Hk2 & Hk3).
  split; [done|]. split; [|split].
  - apply Lru_remove_length in Hf. lia.
  - apply NoDup_cons. split; [done | by apply Hk2].
  - intros k w Hin. apply elem_of_cons in Hin as [[= -> ->]|Hin].
    + apply Hall. by apply list_elem_of_In.
    + apply Hall. apply list_elem_of_In.
      by apply (Lru_remove_In h), list_elem_of_In.
Qed.

Lemma set_wellFormed (m : RegexpMatcher) (h : string) (reg : Regexp2.Regexp) :
  cacheWellFormed m → GoStrings.Contains h "*" = true →
  CompileWildcardRegex h = Ok reg → cacheWellFormed (set m h reg).
Proof.
  intros (Hpos & Hlen & Hnd & Hall) Hstar Hreg.
  unfold cacheWellFormed, set. cbn [Cache].
  split; [|split; [|split]].
  - unfold Lru.Add. destruct (Lru.find _ _); [done|].
    by destruct (Lru.size _ <? _)%nat.
  - by apply Lru_Add_bounded.
  - unfold Lru.Add.
    destruct (Lru_remove_keys h (Lru.items (Cache m))) as (Hk1 & Hk2 & Hk3).
    destruct (Lru.find h (Lru.items (Cache m))) as [w|] eqn:Hf; cbn [Lru.items].
    + rewrite fmap_cons. apply NoDup_cons. split; [done | by apply Hk2].
    + apply Lru_find_None in Hf.
      assert (NoDup ((h, CachedRegexp (Some reg)) :: Lru.items (Cache m)).*1) as Hnd'.
      { rewrite fmap_cons. by apply NoDup_cons. }
      destruct (Lru.size _ <? _)%nat; cbn [Lru.items]; [|done].
      by apply removelast_keys.
  - intros k v Hin. apply list_elem_of_In, Lru_Add_In in Hin as [[= -> ->]|Hin].
    + split; [done|]. by exists reg.
    + apply Hall. by apply list_elem_of_In.
Qed.

Lemma matches_wellFormed (needle : string) (haystack : list string) (m : RegexpMatcher) :
  cacheWellFormed m → cacheWellFormed (snd (matches timedOut m needle haystack)).
Proof.
  revert m. induction haystack as [|h haystack IH]; intros m Hm; cbn [matches]; [done|].
  destruct (GoStrings.Contains h "*") eqn:Hstar; cbn [negb].
  2:{ destruct (String.eqb h needle); [done | by apply IH]. }
  pose proof (get_wellFormed m h Hm) as Hm'.
  destruct (get m h) as [[reg|] m']; cbn [snd] in Hm'.
  - destruct (Regexp2.MatchString timedOut reg needle) as [[] [err|]]; cbn [snd];
      [done.. | by apply IH].
  - destruct (CompileWildcardRegex h) as [reg|err] eqn:Hc; [|done].
    pose proof (set_wellFormed m' h reg Hm' Hstar Hc) as Hset.
    destruct (Regexp2.MatchString timedOut reg needle) as [[] [err|]]; cbn [snd];
      [done.. | by apply IH].
Qed.

Lemma reachable_wellFormed (m : RegexpMatcher) :
  reachable timedOut m → cacheWellFormed m.
Proof.
  induction 1 as [size|m key1 key2 _ IH|m key1 key2 _ IH].
  - apply cacheWellFormed_new.
  - by apply matches_wellFormed.
  - unfold MustMatch.
    pose proof (matches_wellFormed key1 (GoStrings.Split key2 ",") m IH) as H.
    unfold Matches. by destruct (matches timedOut m key1 _) as [[ok [err|]] m'].
Qed.

(** X13. The cache keeps its bound: in every state the matcher can
    reach, the capacity is positive (512 when the matcher was made with a
    size of zero or less) and the cache holds at most that many
    entries; a call never changes the capacity. *)
Theorem cache_stays_within_capacity (m : RegexpMatcher) (key1 key2 : string) :
  reachable timedOut m →
  (0 < Lru.size (Cache m))%nat
  ∧ (length (Lru.items (Cache m)) ≤ Lru.size (Cache m))%nat
  ∧ Lru.size (Cache (snd (Matches timedOut m key1 key2))) = Lru.size (Cache m)
  ∧ (∀ size, size <= 0 → Lru.size (Cache (NewRegexpMatcher size)) = 512%nat).
Proof.
  intros Hm. destruct (reachable_wellFormed m Hm) as (Hpos & Hlen & _).
  split; [done|]. split; [done|]. split.
  - unfold Matches. generalize (GoStrings.Split key2 ","). intros hs. clear.
    revert m. induction hs as [|h hs IH]; intros m; cbn [matches]; [done|].
    destruct (negb (GoStrings.Contains h "*")).
    { destruct (String.eqb h key1); [done | apply IH]. }
    assert (Hget : Lru.size (Cache (snd (get m h))) = Lru.size (Cache m)).
    { unfold get, Lru.Get. destruct (Lru.find h (Lru.items (Cache m))) as [[reg|]|]; done. }
    assert (Hset : ∀ m' reg, Lru.size (Cache (set m' h reg)) = Lru.size (Cache m')).
    { intros m' reg. unfold set, Lru.Add. cbn [Cache].
      destruct (Lru.find _ _); [done|]. by destruct (Lru.size _ <? _)%nat. }
    destruct (get m h) as [[reg|] m']; cbn [snd] in Hget.
    + destruct (Regexp2.MatchString timedOut reg key1) as [[] [err|]]; cbn [snd];
        [done.. | by rewrite IH].
    + destruct (CompileWildcardRegex h) as [reg|err]; [|done].
      destruct (Regexp2.MatchString timedOut reg key1) as [[] [err|]]; cbn [snd];
        rewrite ?IH, Hset; done.
  - intros size Hsize. unfold NewRegexpMatcher. simpl.
    by destruct (Z.leb_spec size 0); [|lia].
Qed.

(** X14. What the cache holds: in every state the matcher can reach no
    key occurs twice, every key is a pattern with a star (an element
    without one is never cached) and every value is the compiled form of
    its key. *)
Theorem cache_holds_compiled_wildcards (m : RegexpMatcher) :
  reachable timedOut m →
  NoDup (Lru.items (Cache m)).*1
  ∧ ∀ k v, (k, v) ∈ Lru.items (Cache m) →
      GoStrings.Contains k "*" = true
      ∧ v = CachedRegexp
              (Some (Regexp2.mkRegexp (Regexp2.Beginning :: spec_wildcard k)
                       regexp2MatchTimeout)).
Proof.
  intros Hm. destruct (reachable_wellFormed m Hm) as (_ & _ & Hnd & Hall).
  split; [done|]. intros k v Hin. destruct (Hall k v Hin) as (Hstar & reg & -> & Hreg).
  split; [done|]. rewrite CompileWildcardRegex_spec in Hreg. by injection Hreg as <-.
Qed.

End CacheInvariant.

Lemma cache_stays_within_capacity_witness :
  let m := snd (Matches neverTimedOut (NewRegexpMatcher 2)
                  "ecs:CreateInstance" "ecs:Describe*,a*,b*,oss:*") in
  (length (Lru.items (Cache m)) ≤ 2)%nat.
Proof.
  intros m.
  apply (cache_stays_within_capacity neverTimedOut m "" "").
  apply reachable_Matches, reachable_new.
Defined.

Lemma cache_holds_compiled_wildcards_witness :
  let m := snd (Matches neverTimedOut (NewRegexpMatcher 2)
                  "ecs:CreateInstance" "ecs:Describe*,exact,b*,oss:*") in
  NoDup (Lru.items (Cache m)).*1.
Proof.
  intros m.
  apply (cache_holds_compiled_wildcards neverTimedOut m).
  apply reachable_Matches, reachable_new.
Defined.

Lemma Lru_find_head {V : Type} (key : string) (v : V) (l : list (string * V)) :
  Lru.find key ((key, v) :: l) = Some v.
Proof. unfold Lru.find. simpl. by rewrite String.eqb_refl. Qed.

Lemma Lru_find_other {V : Type} (key k : string) (v : V) (l : list (string * V)) :
  k ≠ key → Lru.find key ((k, v) :: l) = Lru.find key l.
Proof.
  intros Hne. unfold Lru.find. simpl.
  by apply String.eqb_neq in Hne as ->.
Qed.

Lemma Lru_remove_absent {V : Type} (key : string) (l : list (string * V)) :
  key ∉ l.*1 → Lru.remove key l = l.
Proof.
  unfold Lru.remove. induction l as [|[k v] l IH]; [done|].
  rewrite fmap_cons, not_elem_of_cons. intros [Hne Hl]. simpl in *.
  apply not_eq_sym, String.eqb_neq in Hne as ->. simpl. by rewrite (IH Hl).
Qed.

Lemma Lru_find_absent {V : Type} (key : string) (l : list (string * V)) :
  key ∉ l.*1 → Lru.find key l = None.
Proof.
  induction l as [|[k v] l IH]; [done|].
  rewrite fmap_cons, not_elem_of_cons. intros [Hne Hl]. simpl in *.
  rewrite Lru_find_other by done. by apply IH.
Qed.

(** [Add] puts its entry where [Get] finds it, in a cache with room for
    one entry at least. *)
Lemma Lru_Get_Add {V : Type} (c : Lru.Cache V) (key : string) (v : V) :
  (0 < Lru.size c)%nat →
  fst (Lru.Get (Lru.Add c key v) key) = Some v.
Proof.
  intros Hpos. unfold Lru.Get.
  assert (Hf : Lru.find key (Lru.items (Lru.Add c key v)) = Some v).
  { unfold Lru.Add. destruct (Lru.find key (Lru.items c)) as [w|]; cbn [Lru.items].
    - apply Lru_find_head.
    - destruct (Nat.ltb_spec (Lru.size c) (length ((key, v) :: Lru.items c))) as [H|H];
        cbn [Lru.items]; [|apply Lru_find_head].
      destruct (Lru.items c) as [|b l]; [simpl in H; lia|].
      change (removelast ((key, v) :: b :: l)) with ((key, v) :: removelast (b :: l)).
      apply Lru_find_head. }
  by rewrite Hf.
Qed.

Section CacheUse.

Variable timedOut : Regexp2.Regexp -> list UTF8.rune -> bool.

(** X15. After [Matches] on a single wildcard element, in every state
    the matcher can reach and whether or not the run timed out, the
    element is in the cache: [get] returns its compiled form. *)
Theorem wildcard_cached_after_use (m : RegexpMatcher) (S h : string) :
  reachable timedOut m →
  GoStrings.Contains h "*" = true → isElement h →
  fst (get (snd (Matches timedOut m S h)) h)
  = Some (Regexp2.mkRegexp (Regexp2.Beginning :: spec_wildcard h) regexp2MatchTimeout).
Proof.
  intros Hm Hstar Hel.
  destruct (reachable_wellFormed timedOut m Hm) as (Hpos & _ & _ & Hall).
  unfold Matches. rewrite (Split_element h Hel). cbn [matches]. rewrite Hstar. cbn [negb].
  assert (Hfinal : ∀ (reg : Regexp2.Regexp) (m' : RegexpMatcher),
    snd (match Regexp2.MatchString timedOut reg S
               return (bool * option error) * RegexpMatcher with
         | (_, Some err) => ((false, Some err), m')
         | (true, None) => ((true, None), m')
         | (false, None) => ((false, None), m')
         end) = m').
  { intros reg m'. by destruct (Regexp2.MatchString timedOut reg S) as [[] [err|]]. }
  unfold get at 2. unfold Lru.Get.
  destruct (Lru.find h (Lru.items (Cache m))) as [v|] eqn:Hf.
  - pose proof (Lru_find_In _ _ _ Hf) as Hin. apply list_elem_of_In in Hin.
    destruct (Hall h v Hin) as (_ & reg & -> & Hreg).
    rewrite Hfinal. unfold get, Lru.Get. cbn [Cache Lru.items].
    rewrite Lru_find_head. cbn [fst].
    rewrite CompileWildcardRegex_spec in Hreg. by injection Hreg as <-.
  - rewrite CompileWildcardRegex_spec, Hfinal.
    unfold get, set. cbn [Cache].
    pose proof (Lru_Get_Add (Cache m) h
                  (CachedRegexp (Some (Regexp2.mkRegexp
                     (Regexp2.Beginning :: spec_wildcard h) regexp2MatchTimeout))) Hpos) as HG.
    destruct m as [c]. cbn [Cache] in *.
    by destruct (Lru.Get _ h) as [[[reg|]|] c']; cbn [fst] in *; simplify_eq.
Qed.

End CacheUse.

Lemma wildcard_cached_after_use_witness :
  fst (get (snd (Matches alwaysTimedOut (NewRegexpMatcher 1) "ecs:Stop" "ecs:*")) "ecs:*")
  = Some (Regexp2.mkRegexp (Regexp2.Beginning :: spec_wildcard "ecs:*") regexp2MatchTimeout).
Proof.
  apply (wildcard_cached_after_use alwaysTimedOut (NewRegexpMatcher 1) "ecs:Stop" "ecs:*").
  - apply reachable_new.
  - vm_compute. reflexivity.
  - vm_compute. reflexivity.
Defined.

(** X16. Least recently used goes first. In a full cache with distinct
    keys, [set] of a new pattern drops the entry at the back and keeps
    every other one; a [get] of the entry at the back just before the
    [set] saves it, and the entry before it is dropped instead. *)
Theorem least_recently_used_is_evicted (m : RegexpMatcher)
    (l : list (string * cached)) (k0 k : string) (v0 v : cached)
    (k' : string) (reg : Regexp2.Regexp) :
  Lru.items (Cache m) = l ++ [(k0, v0); (k, v)] →
  NoDup (Lru.items (Cache m)).*1 →
  length (Lru.items (Cache m)) = Lru.size (Cache m) →
  k' ∉ (Lru.items (Cache m)).*1 →
  Lru.items (Cache (set m k' reg))
  = (k', CachedRegexp (Some reg)) :: l ++ [(k0, v0)]
  ∧ Lru.items (Cache (set (snd (get m k)) k' reg))
    = (k', CachedRegexp (Some reg)) :: (k, v) :: l.
Proof.
  intros Hitems Hnd Hfull Hk'.
  assert (Hlast : ∀ (a : string * cached) (xs : list (string * cached)) y,
             removelast (a :: xs ++ [y]) = a :: xs).
  { intros a xs y. change (a :: xs ++ [y]) with ((a :: xs) ++ [y]).
    apply removelast_last. }
  split.
  - unfold set, Lru.Add. cbn [Cache].
    rewrite (Lru_find_absent k' _ Hk').
    destruct (Nat.ltb_spec (Lru.size (Cache m))
                (length ((k', CachedRegexp (Some reg)) :: Lru.items (Cache m)))) as [_|H];
      [|simpl in H; lia].
    cbn [Lru.items]. rewrite Hitems.
    replace (l ++ [(k0, v0); (k, v)]) with ((l ++ [(k0, v0)]) ++ [(k, v)])
      by (by rewrite <- app_assoc).
    by rewrite Hlast.
  - rewrite Hitems in Hnd, Hk'.
    replace (l ++ [(k0, v0); (k, v)]) with ((l ++ [(k0, v0)]) ++ [(k, v)]) in *
      by (by rewrite <- app_assoc).
    rewrite fmap_app in Hnd, Hk'. apply NoDup_app in Hnd as (Hnd1 & Hnd2 & _).
    assert (Hk : k ∉ (l ++ [(k0, v0)]).*1).
    { intros Hin. apply (Hnd2 k Hin). left. }
    assert (Hfind : Lru.find k (Lru.items (Cache m)) = Some v).
    { rewrite Hitems.
      replace (l ++ [(k0, v0); (k, v)]) with ((l ++ [(k0, v0)]) ++ [(k, v)])
        by (by rewrite <- app_assoc).
      clear -Hk. induction (l ++ [(k0, v0)]) as [|[a w] xs IH]; [apply Lru_find_head|].
      rewrite fmap_cons, not_elem_of_cons in Hk. destruct Hk as [Hne Hk].
      rewrite <- app_comm_cons, Lru_find_other by done. by apply IH. }
    assert (Hget : Lru.items (Cache (snd (get m k))) = (k, v) :: l ++ [(k0, v0)]).
    { unfold get, Lru.Get. rewrite Hfind.
      assert (Lru.remove k (Lru.items (Cache m)) = l ++ [(k0, v0)]) as ->.
      { rewrite Hitems.
        replace (l ++ [(k0, v0); (k, v)]) with ((l ++ [(k0, v0)]) ++ [(k, v)])
          by (by rewrite <- app_assoc).
        unfold Lru.remove. rewrite List.filter_app. simpl. rewrite String.eqb_refl. simpl.
        rewrite app_nil_r. by apply (Lru_remove_absent k). }
      by destruct v as [[r|]|]. }
    assert (Hsize : Lru.size (Cache (snd (get m k))) = Lru.size (Cache m)).
    { unfold get, Lru.Get. rewrite Hfind. by destruct v as [[r|]|]. }
    unfold set, Lru.Add. cbn [Cache]. rewrite Hget, Hsize.
    assert (k' ∉ ((k, v) :: l ++ [(k0, v0)]).*1) as Hk''.
    { rewrite fmap_cons, not_elem_of_cons. rewrite not_elem_of_app in Hk'.
      destruct Hk' as [Hk1 Hk2]. split; [|done].
      intros ->. apply Hk2. left. }
    rewrite (Lru_find_absent k' _ Hk'').
    destruct (Nat.ltb_spec (Lru.size (Cache m))
                (length ((k', CachedRegexp (Some reg)) :: (k, v) :: l ++ [(k0, v0)])))
      as [_|H].
    + cbn [Lru.items].
      change ((k', CachedRegexp (Some reg)) :: (k, v) :: l ++ [(k0, v0)])
        with ((k', CachedRegexp (Some reg)) :: ((k, v) :: l) ++ [(k0, v0)]).
      by rewrite Hlast.
    + exfalso. rewrite <- Hfull, Hitems in H. simpl in H.
      rewrite !length_app in H. simpl in H. lia.
Qed.

Lemma least_recently_used_is_evicted_witness :
  let m := snd (Matches neverTimedOut (NewRegexpMatcher 2) "x" "a*,b*") in
  Lru.items (Cache (set m "c*" (Regexp2.mkRegexp [] 0)))
  = [("c*"%string, CachedRegexp (Some (Regexp2.mkRegexp [] 0)));
     ("b*"%string, CachedRegexp (Some (Regexp2.mkRegexp
        (Regexp2.Beginning :: spec_wildcard "b*") regexp2MatchTimeout)))].
Proof.
  intros m.
  refine (proj1 (least_recently_used_is_evicted m [] "b*" "a*"
            (CachedRegexp (Some (Regexp2.mkRegexp
               (Regexp2.Beginning :: spec_wildcard "b*") regexp2MatchTimeout)))
            (CachedRegexp (Some (Regexp2.mkRegexp
               (Regexp2.Beginning :: spec_wildcard "a*") regexp2MatchTimeout)))
            "c*" (Regexp2.mkRegexp [] 0) _ _ _ _)).
  - vm_compute. reflexivity.
  - vm_compute. repeat constructor; by inversion 1; subst; try done;
      match goal with H : _ ∈ [] |- _ => inversion H | H : _ ∈ [_] |- _ => inversion H end.
  - vm_compute. reflexivity.
  - intros H. vm_compute in H.
    repeat (apply elem_of_cons in H as [H|H]; [discriminate H|]). inversion H.
Defined.

(** ** The template compiler on templates it accepts *)

Lemma pairs_ind (P : list Z → Prop) :
  P [] → (∀ x, P [x]) → (∀ lo hi rest, P rest → P (lo :: hi :: rest)) →
  ∀ l, P l.
Proof.
  intros H0 H1 H2. fix IH 1.
  intros [|lo [|hi rest]]; [apply H0 | apply H1 | apply H2, IH].
Qed.

Lemma spansOk_mono (idxs : list Z) :
  ∀ end_ b b', spansOk end_ idxs b → b <= b' → spansOk end_ idxs b'.
Proof.
  induction idxs as [|x|lo hi rest IH] using pairs_ind; intros end_ b b'; simpl.
  - lia.
  - done.
  - intros (H1 & H2 & H3) Hb. repeat split; [done..|]. by apply (IH hi b).
Qed.

Lemma spansOk_app (idxs : list Z) :
  ∀ end_ b lo hi, spansOk end_ idxs b → b <= lo → lo + 2 <= hi →
                  spansOk end_ (idxs ++ [lo; hi]) hi.
Proof.
  induction idxs as [|x|l h rest IH] using pairs_ind; intros end_ b lo hi; simpl.
  - lia.
  - done.
  - intros (H1 & H2 & H3) Hb Hlo. repeat split; [done..|]. by apply (IH h b).
Qed.

Lemma len_cons (c : ascii) (s : string) : len (String c s) = 1 + len s.
Proof. unfold len. simpl String.length. lia. Qed.

Lemma len_nonneg (s : string) : 0 <= len s.
Proof. unfold len. lia. Qed.

(** The index list of [delimiterIndices] is a list of spans. *)
Lemma delimiterIndicesLoop_spans (whole s : string) (ds de : ascii) :
  ∀ i level idx idxs out,
    0 <= level →
    (level = 0 → spansOk 0 idxs i) →
    (0 < level → spansOk 0 idxs idx ∧ idx < i) →
    delimiterIndicesLoop whole s ds de i level idx idxs = Ok out →
    spansOk 0 out (i + len s).
Proof.
  induction s as [|c s IH]; intros i level idx idxs out Hlevel H0 H1; cbn [delimiterIndicesLoop].
  - destruct (Z.eqb_spec level 0) as [E|E]; simpl; [|done].
    intros [= <-]. unfold len. simpl. rewrite Z.add_0_r. by apply H0.
  - rewrite len_cons, Z.add_assoc.
    destruct (Ascii.eqb c ds).
    + cbv zeta. apply IH; [lia | lia |]. intros _.
      destruct (Z.eqb_spec (level + 1) 1) as [E|E].
      * split; [|lia]. apply H0. lia.
      * destruct H1 as [H1 H2]; [lia|]. split; [done | lia].
    + destruct (Ascii.eqb c de).
      * cbv zeta. destruct (Z.eqb_spec (level - 1) 0) as [E|E].
        -- destruct H1 as [H1 H2]; [lia|].
           apply IH; [lia | | lia]. intros _.
           apply (spansOk_app idxs 0 idx); [done | lia | lia].
        -- destruct (Z.ltb_spec (level - 1) 0) as [E'|E']; [done|].
           destruct H1 as [H1 H2]; [lia|].
           apply IH; [lia | lia |]. intros _. split; [done | lia].
      * apply IH; [done | |].
        -- intros E. apply (spansOk_mono idxs 0 i); [by apply H0 | lia].
        -- intros E. destruct (H1 E) as [H2 H3]. split; [done | lia].
Qed.

Section TemplateFacts.

Context {R : Type}.
Variable Compile : string -> option R.
Variable setMatchTimeout : R -> Z -> R.

Lemma slice_returns (s : string) (lo hi : Z) :
  0 <= lo → lo <= hi → hi <= len s → ∃ r, slice s lo hi = Done r.
Proof.
  intros H1 H2 H3. unfold slice.
  destruct (Z.leb_spec 0 lo); [|lia]. destruct (Z.leb_spec lo hi); [|lia].
  unfold len in H3. destruct (Z.leb_spec hi (Z.of_nat (String.length s))); [|lia].
  by eexists.
Qed.

Lemma compileSpans_returns (tpl : string) (idxs : list Z) :
  ∀ end_ pattern calls,
    0 <= end_ → spansOk end_ idxs (len tpl) →
    ∃ r calls',
      compileSpans Compile tpl idxs end_ pattern calls = Done (r, calls')
      ∧ match r with
        | Ok (e, _) => 0 <= e <= len tpl
        | Err _ => True
        end.
Proof.
  induction idxs as [|x|lo hi rest IH] using pairs_ind; intros end_ pattern calls Hend; simpl.
  - intros Hb. by eexists _, _.
  - done.
  - intros (H1 & H2 & H3).
    assert (Hhi : hi <= len tpl).
    { clear -H3. revert hi H3.
      induction rest as [|x|l h rest IH] using pairs_ind; intros hi; simpl; [done..|].
      intros (? & ? & H). apply IH in H. lia. }
    destruct (slice_returns tpl end_ lo) as [raw ->]; [lia..|].
    destruct (slice_returns tpl (lo + 1) (hi - 1)) as [patt ->]; [lia..|].
    cbn [mbind exec_bind].
    destruct (Compile _); [|by eexists _, _].
    apply IH; [lia | done].
Qed.

(** X17. [CompileRegex] never panics: the index list of
    [delimiterIndices] is a list of spans inside the template, in order
    and of two bytes at least each, so every slice expression of
    [CompileRegex] is in range. *)
Theorem CompileRegex_never_panics (tpl : string) (ds de : ascii) :
  (∀ idxs, delimiterIndices tpl ds de = Ok idxs → spansOk 0 idxs (len tpl))
  ∧ ∃ r calls, CompileRegex Compile setMatchTimeout tpl ds de = Done (r, calls).
Proof.
  assert (Hspans : ∀ idxs, delimiterIndices tpl ds de = Ok idxs
                           → spansOk 0 idxs (len tpl)).
  { intros idxs H.
    apply (delimiterIndicesLoop_spans tpl tpl ds de 0 0 0 [] idxs); [done | | lia | done].
    intros _. simpl. lia. }
  split; [done|]. unfold CompileRegex.
  destruct (delimiterIndices tpl ds de) as [idxs|err]; [|by eexists _, _].
  destruct (compileSpans_returns tpl idxs 0 "^" []) as (r & calls & -> & Hr);
    [done | by apply Hspans |].
  cbn [mbind exec_bind]. destruct r as [[e pattern]|err]; [|by eexists _, _].
  destruct (slice_returns tpl e (len tpl)) as [raw Hraw]; [lia..|].
  unfold len in Hraw. rewrite Hraw. cbn [mbind exec_bind].
  destruct (Compile _); by eexists _, _.
Qed.

End TemplateFacts.

Lemma len_append (a b : string) : len (a +:+ b) = len a + len b.
Proof.
  induction a as [|c a IH]; [done|].
  rewrite append_cons, !len_cons, IH. lia.
Qed.

Lemma append_nil_r (s : string) : s +:+ EmptyString = s.
Proof. induction s as [|c s IH]; [done|]. by rewrite append_cons, IH. Qed.

Lemma substring_skip (a s : string) (m : nat) :
  String.substring (String.length a) m (a +:+ s) = String.substring 0 m s.
Proof. induction a as [|c a IH]; [done|]. rewrite append_cons. simpl. apply IH. Qed.

Lemma substring_prefix (b c : string) :
  String.substring 0 (String.length b) (b +:+ c) = b.
Proof.
  induction b as [|x b IH]; [by destruct c|].
  rewrite append_cons. simpl. by rewrite IH.
Qed.

(** The slice of a string between two of its parts. *)
Lemma slice_append (s a b c : string) (lo hi : Z) :
  s = a +:+ (b +:+ c) → lo = len a → hi = len a + len b → slice s lo hi = Done b.
Proof.
  intros -> -> ->. unfold slice.
  pose proof (len_nonneg a). pose proof (len_nonneg b). pose proof (len_nonneg c).
  change (Z.of_nat (String.length (a +:+ (b +:+ c)))) with (len (a +:+ (b +:+ c))).
  rewrite !len_append.
  destruct (Z.leb_spec 0 (len a)); [|lia].
  destruct (Z.leb_spec (len a) (len a + len b)); [|lia].
  destruct (Z.leb_spec (len a + len b) (len a + (len b + len c))); [|lia].
  cbn [andb]. f_equal. unfold len.
  replace (Z.of_nat (String.length a) + Z.of_nat (String.length b)
           - Z.of_nat (String.length a)) with (Z.of_nat (String.length b)) by lia.
  rewrite !Nat2Z.id, substring_skip. apply substring_prefix.
Qed.

(** The loop of [delimiterIndices] passes over text without delimiters. *)
Lemma delimiterIndicesLoop_literal (whole lit r : string) (ds de : ascii) :
  delimiterFree ds de lit →
  ∀ i level idx idxs,
    delimiterIndicesLoop whole (lit +:+ r) ds de i level idx idxs
    = delimiterIndicesLoop whole r ds de (i + len lit) level idx idxs.
Proof.
  unfold delimiterFree. induction lit as [|c lit IH]; intros [Hs He] i level idx idxs.
  - rewrite append_nil_l. unfold len. simpl. by rewrite Z.add_0_r.
  - simpl in Hs, He. apply orb_false_iff in Hs as [Hs1 Hs2].
    apply orb_false_iff in He as [He1 He2].
    rewrite append_cons. cbn [delimiterIndicesLoop]. rewrite Hs1, He1.
    rewrite IH by done. rewrite len_cons. f_equal. lia.
Qed.

(** Inside a span the loop passes over balanced delimiters. *)
Lemma delimiterIndicesLoop_balanced (whole patt r : string) (ds de : ascii) :
  ∀ i level k k' idx idxs,
    0 < level → 0 <= k → spec_counter ds de patt k = Some k' →
    delimiterIndicesLoop whole (patt +:+ r) ds de i (level + k) idx idxs
    = delimiterIndicesLoop whole r ds de (i + len patt) (level + k') idx idxs.
Proof.
  induction patt as [|c patt IH]; intros i level k k' idx idxs Hlevel Hk; simpl spec_counter.
  - intros [= <-]. rewrite append_nil_l. unfold len. simpl. by rewrite Z.add_0_r.
  - rewrite append_cons. cbn [delimiterIndicesLoop]. rewrite len_cons.
    replace (i + (1 + len patt)) with (i + 1 + len patt) by lia.
    destruct (Ascii.eqb c ds).
    + intros H. cbv zeta.
      destruct (Z.eqb_spec (level + k + 1) 1) as [E|_]; [lia|].
      replace (level + k + 1) with (level + (k + 1)) by lia.
      apply IH; [done | lia | done].
    + destruct (Ascii.eqb c de); [|by apply IH].
      destruct (Z.eqb_spec k 0) as [E|E]; [done|]. intros H. cbv zeta.
      destruct (Z.eqb_spec (level + k - 1) 0) as [E0|_]; [lia|].
      destruct (Z.ltb_spec (level + k - 1) 0) as [E0|_]; [lia|].
      replace (level + k - 1) with (level + (k - 1)) by lia.
      apply IH; [done | lia | done].
Qed.

(** At the first level the loop records a literal text and its span. *)
Lemma delimiterIndicesLoop_segment (whole lit patt r : string) (ds de : ascii)
    (i idx : Z) (idxs : list Z) :
  ds ≠ de → delimiterFree ds de lit → spec_counter ds de patt 0 = Some 0 →
  delimiterIndicesLoop whole (lit +:+ String ds (patt +:+ String de r)) ds de i 0 idx idxs
  = delimiterIndicesLoop whole r ds de (i + len lit + len patt + 2) 0 (i + len lit)
      (idxs ++ [i + len lit; i + len lit + len patt + 2]).
Proof.
  intros Hne Hlit Hpatt.
  rewrite delimiterIndicesLoop_literal by done.
  cbn [delimiterIndicesLoop]. rewrite Ascii.eqb_refl. cbv zeta.
  change (0 + 1 =? 1) with true. cbv iota.
  change (0 + 1) with (1 + 0).
  rewrite (delimiterIndicesLoop_balanced whole patt _ ds de _ 1 0 0) by (done || lia).
  cbn [delimiterIndicesLoop].
  assert (Ascii.eqb de ds = false) as -> by (apply Ascii.eqb_neq; congruence).
  rewrite Ascii.eqb_refl. cbv zeta. change (1 + 0 - 1 =? 0) with true. cbv iota.
  change (1 + 0 - 1) with 0.
  replace (i + len lit + 1 + len patt + 1) with (i + len lit + len patt + 2) by lia.
  done.
Qed.

(** [delimiterIndices] on a template gives the first-level spans. *)
Lemma delimiterIndicesLoop_template (whole : string) (ds de : ascii)
    (segs : list (string * string)) (last : string) :
  ds ≠ de →
  Forall (λ seg, delimiterFree ds de seg.1 ∧ spec_counter ds de seg.2 0 = Some 0) segs →
  delimiterFree ds de last →
  ∀ i idx idxs,
    delimiterIndicesLoop whole (spec_template ds de segs last) ds de i 0 idx idxs
    = Ok (idxs ++ spec_spans i segs).
Proof.
  intros Hne Hsegs Hlast. induction Hsegs as [|[lit patt] segs [Hlit Hpatt] _ IH];
    intros i idx idxs; cbn [spec_template spec_spans].
  - rewrite <- (append_nil_r last), delimiterIndicesLoop_literal by done.
    simpl. by rewrite app_nil_r.
  - simpl in Hlit, Hpatt.
    rewrite delimiterIndicesLoop_segment by done. rewrite IH.
    cbv zeta. by rewrite <- app_assoc.
Qed.

Section TemplateSpec.

Context {R : Type}.
Variable Compile : string -> option R.
Variable setMatchTimeout : R -> Z -> R.

Lemma compileSpans_template (ds de : ascii) (segs : list (string * string))
    (last : string) :
  Forall (λ seg, is_Some (Compile (spec_span_expr seg))) segs →
  ∀ pre pattern calls,
    ∃ pre',
      pre +:+ spec_template ds de segs last = pre' +:+ last
      ∧ compileSpans Compile (pre +:+ spec_template ds de segs last)
          (spec_spans (len pre) segs) (len pre) pattern calls
        = Done (Ok (len pre', pattern +:+ spec_spans_pattern segs),
                calls ++ map spec_span_expr segs).
Proof.
  induction 1 as [|[lit patt] segs [reg Hreg] _ IH]; intros pre pattern calls;
    cbn [spec_template spec_spans spec_spans_pattern map compileSpans].
  - exists pre. split; [done|]. by rewrite append_nil_r, app_nil_r.
  - cbv zeta.
    set (rest := spec_template ds de segs last).
    set (tpl := pre +:+ lit +:+ String ds (patt +:+ String de rest)).
    assert (E1 : tpl = (pre +:+ lit +:+ String ds EmptyString)
                         +:+ (patt +:+ String de rest)).
    { unfold tpl. by rewrite !append_assoc3. }
    assert (E2 : tpl = (pre +:+ lit +:+ String ds (patt +:+ String de EmptyString))
                         +:+ rest).
    { unfold tpl. rewrite !append_assoc3. f_equal. f_equal.
      by rewrite append_cons, append_assoc3. }
    destruct (IH (pre +:+ lit +:+ String ds (patt +:+ String de EmptyString))
                (pattern +:+ GoRegexp.QuoteMeta lit +:+ "(" +:+ patt +:+ ")")
                (calls ++ ["^" +:+ patt +:+ "$"])) as (pre' & Hpre' & Hrun).
    fold rest in Hpre', Hrun. rewrite <- E2 in Hpre', Hrun.
    exists pre'. split; [done|].
    rewrite (slice_append tpl pre lit (String ds (patt +:+ String de rest))
               (len pre) (len pre + len lit)) by done.
    cbn [mbind exec_bind].
    rewrite (slice_append tpl (pre +:+ lit +:+ String ds EmptyString) patt
               (String de rest)
               (len pre + len lit + 1) (len pre + len lit + len patt + 2 - 1) E1).
    2:{ rewrite !len_append, len_cons. change (len EmptyString) with 0. lia. }
    2:{ rewrite !len_append, len_cons. change (len EmptyString) with 0. lia. }
    cbn [mbind exec_bind].
    unfold spec_span_expr in Hreg. simpl in Hreg. rewrite Hreg.
    replace (len pre + len lit + len patt + 2)
      with (len (pre +:+ lit +:+ String ds (patt +:+ String de EmptyString))).
    2:{ rewrite !len_append, len_cons, len_append, len_cons.
        change (len EmptyString) with 0. lia. }
    rewrite Hrun. f_equal. f_equal.
    + f_equal. by rewrite !append_assoc3.
    + by rewrite <- app_assoc.
Qed.

(** [CompileRegex] on a template whose index list is that of its spans. *)
Lemma CompileRegex_spans (ds de : ascii) (segs : list (string * string))
    (last : string) :
  delimiterIndices (spec_template ds de segs last) ds de = Ok (spec_spans 0 segs) →
  Forall (λ seg, is_Some (Compile (spec_span_expr seg))) segs →
  CompileRegex Compile setMatchTimeout (spec_template ds de segs last) ds de
  = Done (match Compile (spec_template_expr segs last) with
          | Some reg => Ok (setMatchTimeout reg regexp2MatchTimeout)
          | None => Err (ErrCompile (spec_template_expr segs last))
          end,
          map spec_span_expr segs ++ [spec_template_expr segs last]).
Proof.
  intros Hidxs Hcompile. unfold CompileRegex. rewrite Hidxs.
  destruct (compileSpans_template ds de segs last Hcompile EmptyString "^" [])
    as (pre' & Hpre' & Hrun).
  rewrite append_nil_l in Hpre', Hrun. change (len EmptyString) with 0 in Hrun.
  rewrite Hrun. cbn [mbind exec_bind].
  rewrite (slice_append _ pre' last EmptyString (len pre')
             (Z.of_nat (String.length (spec_template ds de segs last)))).
  - cbn [mbind exec_bind app].
    assert (("^" +:+ spec_spans_pattern segs) +:+ GoRegexp.QuoteMeta last +:+ "$"
            = spec_template_expr segs last) as ->.
    { unfold spec_template_expr. by rewrite append_assoc3. }
    by destruct (Compile (spec_template_expr segs last)).
  - by rewrite append_nil_r.
  - done.
  - rewrite Hpre'. change (Z.of_nat (String.length (pre' +:+ last))) with (len (pre' +:+ last)).
    apply len_append.
Qed.

(** X18. A template of literal texts and bracketed expressions in turn,
    the literal texts free of delimiters and the expressions with
    balanced delimiters of their own: [delimiterIndices] gives the spans
    of the brackets of the first level, and [CompileRegex], when every
    bracketed expression compiles between [^] and [$], compiles the
    expression of the whole template, the literal texts quoted and every
    bracketed expression in a group, after the expressions of the spans
    in their order. *)
Theorem CompileRegex_template (ds de : ascii) (segs : list (string * string))
    (last : string) :
  spec_template_ok ds de segs last →
  Forall (λ seg, is_Some (Compile (spec_span_expr seg))) segs →
  delimiterIndices (spec_template ds de segs last) ds de = Ok (spec_spans 0 segs)
  ∧ CompileRegex Compile setMatchTimeout (spec_template ds de segs last) ds de
    = Done (match Compile (spec_template_expr segs last) with
            | Some reg => Ok (setMatchTimeout reg regexp2MatchTimeout)
            | None => Err (ErrCompile (spec_template_expr segs last))
            end,
            map spec_span_expr segs ++ [spec_template_expr segs last]).
Proof.
  intros (Hne & Hsegs & Hlast) Hcompile.
  assert (Hidxs : delimiterIndices (spec_template ds de segs last) ds de
                  = Ok (spec_spans 0 segs)).
  { unfold delimiterIndices.
    by rewrite (delimiterIndicesLoop_template _ ds de segs last Hne Hsegs Hlast). }
  split; [done|]. by apply CompileRegex_spans.
Qed.

Lemma delimiterIndicesLoop_equal_delimiters (whole s : string) (d : ascii) :
  ∀ i level idx idxs,
    0 <= level → 0 < level ∨ GoStrings.ContainsByte s d = true →
    delimiterIndicesLoop whole s d d i level idx idxs = Err (ErrUnbalanced whole).
Proof.
  induction s as [|c s IH]; intros i level idx idxs Hlevel Hor; cbn [delimiterIndicesLoop].
  - destruct Hor as [Hpos|H]; [|done].
    by destruct (Z.eqb_spec level 0) as [E|E]; [lia|].
  - destruct (Ascii.eqb c d) eqn:Hc.
    + cbv zeta. apply IH; [lia | left; lia].
    + apply IH; [done|]. destruct Hor as [Hpos|H]; [by left | right].
      simpl in H. by rewrite Hc in H.
Qed.

(** X19. With the same byte for both delimiters every occurrence opens a
    span and none closes it: a template that holds the byte is refused as
    unbalanced before anything is compiled, and one that does not is
    compiled whole as quoted literal text. *)
Theorem equal_delimiters_reject (tpl : string) (d : ascii) :
  (GoStrings.ContainsByte tpl d = true →
   CompileRegex Compile setMatchTimeout tpl d d = Done (Err (ErrUnbalanced tpl), []))
  ∧ (GoStrings.ContainsByte tpl d = false →
     CompileRegex Compile setMatchTimeout tpl d d
     = Done (match Compile ("^" +:+ GoRegexp.QuoteMeta tpl +:+ "$") with
             | Some reg => Ok (setMatchTimeout reg regexp2MatchTimeout)
             | None => Err (ErrCompile ("^" +:+ GoRegexp.QuoteMeta tpl +:+ "$"))
             end,
             ["^" +:+ GoRegexp.QuoteMeta tpl +:+ "$"])).
Proof.
  split; intros Hd.
  - unfold CompileRegex, delimiterIndices.
    by rewrite delimiterIndicesLoop_equal_delimiters by (done || by right).
  - apply (CompileRegex_spans d d [] tpl); [|constructor].
    cbn [spec_template spec_spans]. unfold delimiterIndices.
    rewrite <- (append_nil_r tpl) at 2.
    by rewrite delimiterIndicesLoop_literal.
Qed.

End TemplateSpec.

Lemma CompileRegex_template_witness :
  CompileRegex (λ expr, Some expr) (λ reg _, reg) "ecs:{[a-z]{2,4}}:{[0-9]+}/x.y" "{" "}"
  = Done (Ok "^ecs:([a-z]{2,4}):([0-9]+)/x\.y$"%string,
          ["^[a-z]{2,4}$"%string; "^[0-9]+$"%string;
           "^ecs:([a-z]{2,4}):([0-9]+)/x\.y$"%string]).
Proof.
  refine (proj2 (CompileRegex_template (λ expr, Some expr) (λ reg _, reg) "{" "}"
                   [("ecs:"%string, "[a-z]{2,4}"%string); (":"%string, "[0-9]+"%string)]
                   "/x.y" _ _)).
  - split; [discriminate|]. split; [|by vm_compute].
    repeat constructor.
  - repeat constructor; by eexists.
Defined.

Lemma equal_delimiters_reject_witness :
  CompileRegex (λ expr, Some expr) (λ reg _, reg) "a|b|c" "|" "|"
  = Done (Err (ErrUnbalanced "a|b|c"), []).
Proof.
  apply (equal_delimiters_reject (λ expr, Some expr) (λ reg _, reg) "a|b|c" "|").
  vm_compute. reflexivity.
Defined.
